(** * Investment simulator: lump sum versus dollar-cost averaging

    A shallow embedding of [src/simulate_strategies.py] and the properties
    of its monthly date selection, its two strategy simulations and its
    aggregation loop.

    The pandas data frames of the source are lists of rows, Python
    exceptions are the left summand of [exn + A], and float arithmetic is
    an interface ([Float64]) with two instances: IEEE binary64, which is
    what Python and numpy compute with, and exact rationals. *)

From Stdlib Require Import ZArith QArith Floats.SpecFloat.
From stdpp Require Import base list sorting strings.

Local Open Scope Z_scope.

(** ** Timestamps

    The [Date] column holds daily bars: the values are calendar days, and
    the source reads them through [.dt.year], [.dt.month], [.dt.day],
    compares them with [<], [==] and takes [min], [max]. *)

Record Timestamp := mkTimestamp { year : Z; month : Z; day : Z }.

#[global] Instance Timestamp_eq_dec : EqDecision Timestamp.
Proof. solve_decision. Defined.

(** Chronological order: lexicographic on (year, month, day). *)
Definition ts_le (a b : Timestamp) : Prop :=
  year a < year b ∨
  (year a = year b ∧
   (month a < month b ∨ (month a = month b ∧ day a ≤ day b))).

Definition ts_lt (a b : Timestamp) : Prop :=
  year a < year b ∨
  (year a = year b ∧
   (month a < month b ∨ (month a = month b ∧ day a < day b))).

#[global] Instance ts_le_dec : RelDecision ts_le.
Proof. intros a b. unfold ts_le. apply _. Defined.

#[global] Instance ts_lt_dec : RelDecision ts_lt.
Proof. intros a b. unfold ts_lt. apply _. Defined.

(** The key of [groupby(["year", "month"])]. *)
Definition ym (d : Timestamp) : Z * Z := (year d, month d).

Definition ym_le (k1 k2 : Z * Z) : Prop :=
  k1.1 < k2.1 ∨ (k1.1 = k2.1 ∧ k1.2 ≤ k2.2).

#[global] Instance ym_le_dec : RelDecision ym_le.
Proof. intros a b. unfold ym_le. apply _. Defined.

(** ** Python exceptions raised by the modelled code *)

Inductive exn : Type :=
  | KeyError            (* [df.loc[0, ...]] on a frame without row 0 *)
  | ZeroDivisionError   (* [/] on Python floats with a zero divisor *)
  | ValueError.         (* [pd.concat] of no frames, column of wrong length *)

#[global] Instance exn_eq_dec : EqDecision exn.
Proof. solve_decision. Defined.

#[global] Instance exn_ret : MRet (sum exn) := λ A x, inr x.
#[global] Instance exn_bind : MBind (sum exn) := λ A B k m,
  match m with
  | inl e => inl e
  | inr x => k x
  end.

Definition raises {A} (m : exn + A) : Prop := ∃ e, m = inl e.
Definition returns {A} (m : exn + A) : Prop := ∃ x, m = inr x.

(** ** Float arithmetic

    The operations the source applies to floats. [f_lit z] is the float
    literal of integral value [z] ([0.0], [300.0], [10000.0]); [f_div] is
    IEEE division, total; [f_is_zero] is [x == 0.0]. *)

Class Float64 (F : Type) := {
  f_lit : Z → F;
  f_add : F → F → F;
  f_mul : F → F → F;
  f_div : F → F → F;
  f_is_zero : F → bool
}.

(** IEEE 754 binary64, from the executable specification of the library. *)
Module B64.
Definition prec : Z := 53.
Definition emax : Z := 1024.
Definition t : Type := spec_float.
Definition lit (z : Z) : t := binary_normalize prec emax z 0 false.
Definition add : t → t → t := SFadd prec emax.
Definition mul : t → t → t := SFmul prec emax.
Definition div : t → t → t := SFdiv prec emax.
Definition is_zero (x : t) : bool := SFeqb x (S754_zero false).
Definition leb : t → t → bool := SFleb.
Definition ltb : t → t → bool := SFltb.
Definition inf : t := S754_infinity false.
Definition nan : t := S754_nan.

(** The numbers of the format (a finite number has the canonical
    mantissa and exponent of its value), and among them those at least
    zero under [<=], which are [-0.0], [+0.0], the positive finite numbers
    and [+inf], and those above zero under [<]. NaN is in neither class. *)
Definition valid (x : t) : bool := valid_binary prec emax x.
Definition nonneg (x : t) : Prop := valid x = true ∧ leb (lit 0) x = true.
Definition pos (x : t) : Prop := valid x = true ∧ ltb (lit 0) x = true.
End B64.

#[global] Instance binary64 : Float64 B64.t := {|
  f_lit := B64.lit;
  f_add := B64.add;
  f_mul := B64.mul;
  f_div := B64.div;
  f_is_zero := B64.is_zero
|}.

(** Exact rational arithmetic: floats without rounding. *)
#[global] Instance exactQ : Float64 Q := {|
  f_lit := inject_Z;
  f_add := Qplus;
  f_mul := Qmult;
  f_div := Qdiv;
  f_is_zero := λ x, Qeq_bool x (inject_Z 0)
|}.

(** ** Simulation parameters (module constants of the source) *)

Definition INVESTMENT_DAY : Z := 5.

Section Simulator.
Context {F : Type} `{Float64 F}.

Definition INITIAL_CAPITAL : F := f_lit 10000.
Definition MONTHLY_CONTRIBUTION : F := f_lit 300.

(** [INITIAL_CAPITAL / first_price]: [df.loc[0, "adj_close"]] is a
    [numpy.float64], whose division is IEEE division. It never raises: a
    zero divisor gives an infinity or a NaN (and a warning). *)
Definition np_truediv (x y : F) : F := f_div x y.

(** [MONTHLY_CONTRIBUTION / price]: the rows of [iterrows()] of a frame
    with columns of several dtypes hold Python objects, so [price] is a
    Python [float], whose division raises on a zero divisor. *)
Definition py_truediv (x y : F) : exn + F :=
  if f_is_zero y then inl ZeroDivisionError else inr (f_div x y).

(** ** Data frames *)

(** A row of the frame returned by [get_price_series]. *)
Record Row := mkRow { Date : Timestamp; adj_close : F }.

Definition DataFrame := list Row.

(** A row of [df_equity]: the six columns selected at the end of each
    simulation. *)
Record EquityRecord := mkEquity {
  eq_Date : Timestamp;
  eq_ticker : string;
  eq_strategy : string;
  units : F;
  invested_amount : F;
  portfolio_value : F
}.

Record StrategyResult := mkResult {
  df_equity : list EquityRecord;
  name : string;
  ticker : string
}.

(** ** simulate_lump_sum *)

(** [df.loc[0, "adj_close"]] after [reset_index(drop=True)]. *)
Definition loc0_adj_close (df : DataFrame) : exn + F :=
  match df with
  | [] => inl KeyError
  | row :: _ => inr (adj_close row)
  end.

(** [df] is a copy of [prices] with the index reset; [units] and
    [invested_amount] are scalars broadcast to every row, [portfolio_value]
    is the product of two columns, row by row. *)
Definition simulate_lump_sum (prices : DataFrame) (tk : string)
  : exn + StrategyResult :=
  let df := prices in
  first_price ← loc0_adj_close df;
  let units := np_truediv INITIAL_CAPITAL first_price in
  mret {| df_equity :=
            (λ row, {| eq_Date := Date row;
                       eq_ticker := tk;
                       eq_strategy := "Lump Sum";
                       units := units;
                       invested_amount := INITIAL_CAPITAL;
                       portfolio_value := f_mul units (adj_close row) |})
            <$> df;
          name := "Lump Sum";
          ticker := tk |}.

(** ** _get_monthly_investment_dates *)

(** [sorted(...)] on timestamps and [sort_values("Date")] on rows. *)
Definition sorted (l : list Timestamp) : list Timestamp :=
  merge_sort ts_le l.

Definition sort_values_Date (df : DataFrame) : DataFrame :=
  merge_sort (λ r1 r2, ts_le (Date r1) (Date r2)) df.

(** [Series.max()] and [Series.min()] of a column of timestamps; an empty
    column has none (pandas answers [NaT]). *)
Definition ts_max (a b : Timestamp) : Timestamp :=
  if decide (ts_le a b) then b else a.
Definition ts_min (a b : Timestamp) : Timestamp :=
  if decide (ts_le a b) then a else b.

Definition series_max (s : list Timestamp) : option Timestamp :=
  match s with
  | [] => None
  | d :: rest => Some (foldl ts_max d rest)
  end.

Definition series_min (s : list Timestamp) : option Timestamp :=
  match s with
  | [] => None
  | d :: rest => Some (foldl ts_min d rest)
  end.

(** [prices.groupby(["year", "month"])]: one group per key present, keys
    ascending, each group holding the rows of its key in frame order. *)
Definition group_keys (prices : DataFrame) : list (Z * Z) :=
  merge_sort ym_le (remove_dups ((λ r, ym (Date r)) <$> prices)).

Definition groupby_year_month (prices : DataFrame)
  : list ((Z * Z) * DataFrame) :=
  (λ k, (k, filter (λ r, ym (Date r) = k) prices)) <$> group_keys prices.

(** The body of the loop over the groups. *)
Definition invest_date_of_group (group : DataFrame) : option Timestamp :=
  let group := sort_values_Date group in
  let cand := filter (λ r, INVESTMENT_DAY ≤ day (Date r)) group in
  if bool_decide (cand = [])
  then series_max (Date <$> group)
  else series_min (Date <$> cand).

(** Groups are never empty, so every iteration appends a date (see
    [invest_date_of_group_is_Some]). *)
Definition _get_monthly_investment_dates (prices : DataFrame)
  : list Timestamp :=
  let invest_dates :=
    omap (λ kg, invest_date_of_group kg.2) (groupby_year_month prices) in
  sorted invest_dates.

(** ** simulate_dca *)

(** The loop state: the two running totals and the three output lists. *)
Record dca_state := mkDca {
  total_units : F;
  total_invested : F;
  units_list : list F;
  invested_list : list F;
  value_list : list F
}.

Definition dca_init : dca_state :=
  {| total_units := f_lit 0; total_invested := f_lit 0;
     units_list := []; invested_list := []; value_list := [] |}.

(** One iteration of [for idx, row in df.iterrows()]. *)
Definition dca_step (invest_dates : list Timestamp) (st : dca_state)
    (row : Row) : exn + dca_state :=
  let current_date := Date row in
  let price := adj_close row in
  totals ←
    (if bool_decide (current_date ∈ invest_dates)
     then buy_units ← py_truediv MONTHLY_CONTRIBUTION price;
          mret (f_add (total_units st) buy_units,
                f_add (total_invested st) MONTHLY_CONTRIBUTION)
     else mret (total_units st, total_invested st));
  let portfolio_value := f_mul totals.1 price in
  mret {| total_units := totals.1;
          total_invested := totals.2;
          units_list := units_list st ++ [totals.1];
          invested_list := invested_list st ++ [totals.2];
          value_list := value_list st ++ [portfolio_value] |}.

Fixpoint dca_loop (invest_dates : list Timestamp) (st : dca_state)
    (rows : DataFrame) : exn + dca_state :=
  match rows with
  | [] => mret st
  | row :: rest =>
      st' ← dca_step invest_dates st row;
      dca_loop invest_dates st' rest
  end.

(** [df["units"] = units_list] and the two assignments after it, then the
    selection of the six output columns. Assigning a list whose length
    differs from the frame's raises [ValueError]. *)
Fixpoint zip_columns (tk strat : string) (df : DataFrame)
    (us ins vs : list F) : list EquityRecord :=
  match df, us, ins, vs with
  | row :: df', u :: us', i :: ins', v :: vs' =>
      {| eq_Date := Date row; eq_ticker := tk; eq_strategy := strat;
         units := u; invested_amount := i; portfolio_value := v |}
      :: zip_columns tk strat df' us' ins' vs'
  | _, _, _, _ => []
  end.

Definition assign_columns (tk strat : string) (df : DataFrame)
    (us ins vs : list F) : exn + list EquityRecord :=
  if bool_decide (length us = length df ∧ length ins = length df
                  ∧ length vs = length df)
  then mret (zip_columns tk strat df us ins vs)
  else inl ValueError.

Definition simulate_dca (prices : DataFrame) (tk : string)
  : exn + StrategyResult :=
  let df := prices in
  let invest_dates := _get_monthly_investment_dates df in
  st ← dca_loop invest_dates dca_init df;
  eq ← assign_columns tk "DCA" df
         (units_list st) (invested_list st) (value_list st);
  mret {| df_equity := eq; name := "DCA"; ticker := tk |}.

(** ** run_simulations *)

(** The [prices] table of the database behind [conn]. *)
Record PriceRecord := mkPrice {
  Ticker : string;
  pr_Date : Timestamp;
  pr_adj_close : F
}.

Definition Connection := list PriceRecord.

(** [ORDER BY Date]: the rows in non-decreasing order of date, rows of
    equal date in the order in which the table holds them (the sorter of
    SQLite merges runs of the scan and keeps the order of rows that compare
    equal). [insert_by_Date r l] puts [r] before the first row of [l] that
    is not earlier than it. *)
Fixpoint insert_by_Date (r : Row) (l : DataFrame) : DataFrame :=
  match l with
  | [] => [r]
  | x :: l' =>
      if decide (ts_le (Date r) (Date x)) then r :: x :: l'
      else x :: insert_by_Date r l'
  end.

Definition order_by_Date (df : DataFrame) : DataFrame :=
  foldr insert_by_Date [] df.

(** [SELECT Date, [Adj Close] FROM prices WHERE Ticker = ? ORDER BY Date]. *)
Definition get_price_series (tk : string) (conn : Connection) : DataFrame :=
  order_by_Date
    ((λ p, {| Date := pr_Date p; adj_close := pr_adj_close p |})
       <$> filter (λ p, Ticker p = tk) conn).

(** The loop over the tickers; [all_results] is the list of frames
    collected so far. The first exception leaves the loop and the
    function. *)
Fixpoint run_loop (tickers : list string) (conn : Connection)
    (all_results : list (list EquityRecord))
  : exn + list (list EquityRecord) :=
  match tickers with
  | [] => mret all_results
  | tk :: rest =>
      let prices := get_price_series tk conn in
      lump ← simulate_lump_sum prices tk;
      dca ← simulate_dca prices tk;
      run_loop rest conn (all_results ++ [df_equity lump; df_equity dca])
  end.

(** [pd.concat(frames, ignore_index=True)]. *)
Definition pd_concat (frames : list (list EquityRecord))
  : exn + list EquityRecord :=
  match frames with
  | [] => inl ValueError
  | _ => mret (concat frames)
  end.

Definition run_simulations (tickers : list string) (conn : Connection)
  : exn + list EquityRecord :=
  all_results ← run_loop tickers conn [];
  pd_concat all_results.

End Simulator.

Arguments Row F : clear implicits.
Arguments DataFrame F : clear implicits.
Arguments EquityRecord F : clear implicits.
Arguments StrategyResult F : clear implicits.
Arguments dca_state F : clear implicits.
Arguments PriceRecord F : clear implicits.
Arguments Connection F : clear implicits.

(** ** Vocabulary of the properties *)

Section Vocabulary.
Context {F : Type} `{Float64 F}.

(** The dates of the input that fall in the calendar month [k]. *)
Definition month_dates (prices : DataFrame F) (k : Z * Z) : list Timestamp :=
  filter (λ d, ym d = k) (Date <$> prices).

(** Those on or after the target day. *)
Definition on_or_after_target (l : list Timestamp) : list Timestamp :=
  filter (λ d, INVESTMENT_DAY ≤ day d) l.

Definition is_minimum (d : Timestamp) (l : list Timestamp) : Prop :=
  d ∈ l ∧ ∀ x, x ∈ l → ts_le d x.

Definition is_maximum (d : Timestamp) (l : list Timestamp) : Prop :=
  d ∈ l ∧ ∀ x, x ∈ l → ts_le x d.

(** The "target day, else last day" rule for the month of [d]. *)
Definition month_rule (prices : DataFrame F) (d : Timestamp) : Prop :=
  let m := month_dates prices (ym d) in
  let eligible := on_or_after_target m in
  (eligible ≠ [] → is_minimum d eligible) ∧
  (eligible = [] → is_maximum d m).

(** Number of distinct calendar months with data. *)
Definition months_with_data (prices : DataFrame F) : nat :=
  length (remove_dups ((λ r, ym (Date r)) <$> prices)).

(** The two accumulators along a run: the initial state, then the state
    recorded in every emitted row. *)
Definition accumulators (res : StrategyResult F) : list (F * F) :=
  (f_lit 0, f_lit 0)
  :: ((λ e, (units e, invested_amount e)) <$> df_equity res).

(** The transition of the two accumulators on one row, for a schedule
    [sched], and the states it yields along a frame. *)
Definition next_totals (sched : list Timestamp) (a : F * F) (row : Row F)
  : F * F :=
  if bool_decide (Date row ∈ sched)
  then (f_add a.1 (f_div MONTHLY_CONTRIBUTION (adj_close row)),
        f_add a.2 MONTHLY_CONTRIBUTION)
  else a.

Fixpoint dca_totals (sched : list Timestamp) (a : F * F)
    (rows : DataFrame F) : list (F * F) :=
  match rows with
  | [] => []
  | row :: rest =>
      let a' := next_totals sched a row in
      a' :: dca_totals sched a' rest
  end.

(** No price on a schedule date is zero. *)
Definition no_zero_divisor (sched : list Timestamp) (rows : DataFrame F)
  : Prop :=
  ∀ row,
    row ∈ rows → Date row ∈ sched → f_is_zero (adj_close row) = false.

(** The rows on which [simulate_dca] buys. *)
Definition purchase_rows (prices : DataFrame F) : DataFrame F :=
  filter (λ r, Date r ∈ _get_monthly_investment_dates prices) prices.

(** The equity curve of a simulation that returned. *)
Definition curve (m : exn + StrategyResult F) : list (EquityRecord F) :=
  match m with
  | inr r => df_equity r
  | inl _ => []
  end.

Definition simulation_fails (conn : Connection F) (tk : string) : Prop :=
  raises (simulate_lump_sum (get_price_series tk conn) tk) ∨
  raises (simulate_dca (get_price_series tk conn) tk).
End Vocabulary.

(** Multiples of the monthly contribution accumulate without rounding. *)
Class ExactContribution (F : Type) `{Float64 F} : Prop := {
  contribution_times_0 :
    f_mul MONTHLY_CONTRIBUTION (f_lit 0) = f_lit 0;
  contribution_times_succ : ∀ n, 0 ≤ n →
    f_mul MONTHLY_CONTRIBUTION (f_lit (n + 1))
    = f_add (f_mul MONTHLY_CONTRIBUTION (f_lit n)) MONTHLY_CONTRIBUTION
}.

(** ** Exact arithmetic accumulates without rounding *)

#[global] Instance exactQ_contribution : ExactContribution Q.
Proof.
  split.
  - reflexivity.
  - intros n Hn. unfold MONTHLY_CONTRIBUTION. simpl.
    unfold Qmult, Qplus, inject_Z. simpl. f_equal. lia.
Qed.

(** ** Concrete series used below *)

Definition b64_row (y m d p : Z) : Row B64.t :=
  mkRow (mkTimestamp y m d) (B64.lit p).
Definition q_row (y m d p : Z) : Row Q :=
  mkRow (mkTimestamp y m d) (inject_Z p).

(** Two months of data, two rows each. *)
Definition ex_two_months : DataFrame Q :=
  [q_row 2020 1 3 10; q_row 2020 1 20 12;
   q_row 2020 2 5 11; q_row 2020 2 25 13].
Definition ex_two_months_dca : StrategyResult Q :=
  {| df_equity := curve (simulate_dca ex_two_months "AAPL");
     name := "DCA"; ticker := "AAPL" |}.

(** The same two months in binary64: the second purchase is rounded. *)
Definition ex_two_months_b64 : DataFrame B64.t :=
  [b64_row 2020 1 3 10; b64_row 2020 1 20 12;
   b64_row 2020 2 5 11; b64_row 2020 2 25 13].
Definition ex_two_months_b64_dca : StrategyResult B64.t :=
  {| df_equity := curve (simulate_dca ex_two_months_b64 "AAPL");
     name := "DCA"; ticker := "AAPL" |}.

(** A negative adjusted close on the investment date of February. *)
Definition ex_negative_price : DataFrame B64.t :=
  [b64_row 2020 1 6 10; b64_row 2020 2 5 (-20)].
Definition ex_negative_price_dca : StrategyResult B64.t :=
  {| df_equity := curve (simulate_dca ex_negative_price "AAPL");
     name := "DCA"; ticker := "AAPL" |}.

(** The same day twice. *)
Definition ex_duplicate_dates : DataFrame B64.t :=
  [b64_row 2020 1 6 10; b64_row 2020 1 6 10].
Definition ex_duplicate_dates_dca : StrategyResult B64.t :=
  {| df_equity := curve (simulate_dca ex_duplicate_dates "AAPL");
     name := "DCA"; ticker := "AAPL" |}.


(** February before January. *)
Definition ex_unordered : DataFrame B64.t :=
  [b64_row 2020 2 5 10; b64_row 2020 1 6 10].

(** A database with prices for MSFT and none for AAPL. *)
Definition ex_conn_msft_only : Connection B64.t :=
  [mkPrice "MSFT" (mkTimestamp 2020 1 6) (B64.lit 10)].

(** A database with a zero price for MSFT and no price for AAPL. *)
Definition ex_conn_msft_zero : Connection B64.t :=
  [mkPrice "MSFT" (mkTimestamp 2020 1 6) (B64.lit 0)].

(** A database with two prices for AAPL on the same day. *)
Definition ex_conn_same_day_twice : Connection B64.t :=
  [mkPrice "AAPL" (mkTimestamp 2020 1 6) (B64.lit 10);
   mkPrice "AAPL" (mkTimestamp 2020 1 6) (B64.lit 11)].

(** ** Vocabulary of the further properties *)

Section MoreVocabulary.
Context {F : Type} `{Float64 F}.

(** One purchase: the two updates in the body of the [if] of the loop of
    [simulate_dca], for a price that is not zero. *)
Definition buy (a : F * F) (row : Row F) : F * F :=
  (f_add a.1 (f_div MONTHLY_CONTRIBUTION (adj_close row)),
   f_add a.2 MONTHLY_CONTRIBUTION).

(** The columns [ticker], [strategy] and [Date] of a record. *)
Definition record_key (e : EquityRecord F) : string * string * Timestamp :=
  (eq_ticker e, eq_strategy e, eq_Date e).

(** The keys of the two curves of an instrument whose series has the
    dates [dates]. *)
Definition series_keys (tk : string) (dates : list Timestamp)
  : list (string * string * Timestamp) :=
  ((λ d, (tk, "Lump Sum", d)) <$> dates) ++ ((λ d, (tk, "DCA", d)) <$> dates).

(** The columns [Ticker] and [Date] of a row of the [prices] table. *)
Definition table_key (p : PriceRecord F) : string * Timestamp :=
  (Ticker p, pr_Date p).

(** The exception of an instrument whose simulation fails. *)
Definition exception_of (conn : Connection F) (tk : string) : exn :=
  match get_price_series tk conn with
  | [] => KeyError
  | _ :: _ => ZeroDivisionError
  end.

(** ** main *)

(** The tickers fixed in [main]. *)
Definition MAIN_TICKERS : list string := ["AAPL"; "MSFT"; "^GSPC"].

(** [main()]: the file [equity_curves.csv] is represented by the frame it
    holds, if it exists. [to_csv] comes after [run_simulations]: an
    exception of the latter leaves the file as it was. The result is the
    exception that ended [main], if any, and the file afterwards. *)
Definition main (conn : Connection F)
    (equity_curves_csv : option (list (EquityRecord F)))
  : option exn * option (list (EquityRecord F)) :=
  let tickers := MAIN_TICKERS in
  match run_simulations tickers conn with
  | inl e => (Some e, equity_curves_csv)
  | inr df_equity_curves => (None, Some df_equity_curves)
  end.
End MoreVocabulary.

(** Two frames with the dates of [ex_unordered]: other prices, another
    order, a row twice. *)
Definition ex_reordered : DataFrame B64.t :=
  [b64_row 2020 1 6 7; b64_row 2020 2 5 9; b64_row 2020 2 5 9].

(** [ex_unordered] followed by a day of March. *)
Definition ex_with_march : DataFrame B64.t :=
  ex_unordered ++ [b64_row 2020 3 2 12].

(** A table with one row per ticker and day. *)
Definition ex_conn_two_tickers : Connection B64.t :=
  [mkPrice "AAPL" (mkTimestamp 2020 2 5) (B64.lit 11);
   mkPrice "MSFT" (mkTimestamp 2020 1 6) (B64.lit 20);
   mkPrice "AAPL" (mkTimestamp 2020 1 6) (B64.lit 10)].

(** The frame of [run_simulations] for the two tickers of that table. *)
Definition ex_two_tickers_all : list (EquityRecord B64.t) :=
  match run_simulations ["AAPL"; "MSFT"] ex_conn_two_tickers with
  | inr all => all
  | inl _ => []
  end.

(** * Properties *)

(** ** The orders *)

Ltac order_tac :=
  unfold ts_le, ts_lt, ym_le, ym in *; simpl in *; lia.

#[global] Instance ts_le_refl : Reflexive ts_le.
Proof. intros [y m d]. order_tac. Qed.

#[global] Instance ts_le_trans : Transitive ts_le.
Proof. intros [y1 m1 d1] [y2 m2 d2] [y3 m3 d3] ? ?. order_tac. Qed.

#[global] Instance ts_le_total : Total ts_le.
Proof. intros [y1 m1 d1] [y2 m2 d2]. order_tac. Qed.

Lemma ts_le_lt_ym a b : ts_le a b → ym a ≠ ym b → ts_lt a b.
Proof.
  destruct a as [y1 m1 d1], b as [y2 m2 d2]. unfold ym; simpl.
  intros Hle Hne.
  assert (y1 ≠ y2 ∨ m1 ≠ m2)
    by (destruct (decide (y1 = y2)); [right|left]; congruence).
  order_tac.
Qed.

#[global] Instance ym_le_trans : Transitive ym_le.
Proof. intros [y1 m1] [y2 m2] [y3 m3] ? ?. order_tac. Qed.

#[global] Instance ym_le_total : Total ym_le.
Proof. intros [y1 m1] [y2 m2]. order_tac. Qed.

#[global] Instance row_le_total {F} :
  Total (λ r1 r2 : Row F, ts_le (Date r1) (Date r2)).
Proof. intros r1 r2. apply ts_le_total. Qed.

(** ** Minimum and maximum of a column *)

Lemma foldl_ts_max_spec l d :
  let m := foldl ts_max d l in
  (m = d ∨ m ∈ l) ∧ ts_le d m ∧ ∀ x, x ∈ l → ts_le x m.
Proof.
  revert d. induction l as [|y l IH]; intros d; simpl.
  - split; [by left|]. split; [reflexivity|].
    intros x Hx. by apply not_elem_of_nil in Hx.
  - destruct (IH (ts_max d y)) as (Hin & Hle & Hall).
    assert (ts_le d (ts_max d y) ∧ ts_le y (ts_max d y)
            ∧ (ts_max d y = d ∨ ts_max d y = y)) as (Hd & Hy & Hm).
    { unfold ts_max. destruct (decide (ts_le d y)) as [Hdy|Hdy].
      - split; [done|]. split; [reflexivity|by right].
      - split; [reflexivity|]. split; [|by left].
        destruct (ts_le_total d y); [done|done]. }
    split; [|split].
    + destruct Hin as [->|Hin]; [|right; by apply list_elem_of_further].
      destruct Hm as [->| ->]; [by left|right; apply list_elem_of_here].
    + by etrans.
    + intros x [->|Hx]%elem_of_cons; [by etrans|by apply Hall].
Qed.

Lemma foldl_ts_min_spec l d :
  let m := foldl ts_min d l in
  (m = d ∨ m ∈ l) ∧ ts_le m d ∧ ∀ x, x ∈ l → ts_le m x.
Proof.
  revert d. induction l as [|y l IH]; intros d; simpl.
  - split; [by left|]. split; [reflexivity|].
    intros x Hx. by apply not_elem_of_nil in Hx.
  - destruct (IH (ts_min d y)) as (Hin & Hle & Hall).
    assert (ts_le (ts_min d y) d ∧ ts_le (ts_min d y) y
            ∧ (ts_min d y = d ∨ ts_min d y = y)) as (Hd & Hy & Hm).
    { unfold ts_min. destruct (decide (ts_le d y)) as [Hdy|Hdy].
      - split; [reflexivity|]. split; [done|by left].
      - split; [|split; [reflexivity|by right]].
        destruct (ts_le_total d y); [done|done]. }
    split; [|split].
    + destruct Hin as [->|Hin]; [|right; by apply list_elem_of_further].
      destruct Hm as [->| ->]; [by left|right; apply list_elem_of_here].
    + by etrans.
    + intros x [->|Hx]%elem_of_cons; [by etrans|by apply Hall].
Qed.

Lemma series_max_spec s :
  s ≠ [] → ∃ d, series_max s = Some d ∧ is_maximum d s.
Proof.
  destruct s as [|d0 l]; [done|]. intros _. simpl.
  destruct (foldl_ts_max_spec l d0) as (Hin & Hle & Hall).
  eexists; split; [done|]. split.
  - destruct Hin as [->|Hin];
      [apply list_elem_of_here|by apply list_elem_of_further].
  - intros x [->|Hx]%elem_of_cons; [done|by apply Hall].
Qed.

Lemma series_min_spec s :
  s ≠ [] → ∃ d, series_min s = Some d ∧ is_minimum d s.
Proof.
  destruct s as [|d0 l]; [done|]. intros _. simpl.
  destruct (foldl_ts_min_spec l d0) as (Hin & Hle & Hall).
  eexists; split; [done|]. split.
  - destruct Hin as [->|Hin];
      [apply list_elem_of_here|by apply list_elem_of_further].
  - intros x [->|Hx]%elem_of_cons; [done|by apply Hall].
Qed.

Section Selection.
Context {F : Type} `{Float64 F}.
Implicit Types (prices group : DataFrame F) (d : Timestamp) (k : Z * Z).

Lemma elem_of_sort_values_Date group r :
  r ∈ sort_values_Date group ↔ r ∈ group.
Proof. unfold sort_values_Date. by rewrite merge_sort_Permutation. Qed.

Lemma elem_of_sorted l d : d ∈ sorted l ↔ d ∈ l.
Proof. unfold sorted. by rewrite merge_sort_Permutation. Qed.

(** The date picked in a group: it is one of the group's dates, the
    earliest on or after the target day if there is one, the latest of
    the group otherwise. *)
Lemma invest_date_of_group_spec group :
  group ≠ [] →
  ∃ d, invest_date_of_group group = Some d ∧
    let dates := Date <$> group in
    (on_or_after_target dates ≠ []
     → is_minimum d (on_or_after_target dates)) ∧
    (on_or_after_target dates = [] → is_maximum d dates).
Proof.
  intros Hne. unfold invest_date_of_group.
  set (g := sort_values_Date group).
  set (cand := filter (λ r, INVESTMENT_DAY ≤ day (Date r)) g).
  assert (Hdates : ∀ x, x ∈ Date <$> g ↔ x ∈ Date <$> group).
  { intros x. subst g. rewrite !list_elem_of_fmap.
    by setoid_rewrite elem_of_sort_values_Date. }
  assert (Hcand : ∀ x, x ∈ Date <$> cand
                       ↔ x ∈ on_or_after_target (Date <$> group)).
  { intros x. unfold on_or_after_target. subst cand g.
    rewrite list_elem_of_filter, !list_elem_of_fmap.
    setoid_rewrite list_elem_of_filter.
    setoid_rewrite elem_of_sort_values_Date. split.
    - intros (r & -> & Hday & Hr). split; [done|by exists r].
    - intros (Hday & r & -> & Hr). by exists r. }
  case_bool_decide as Hc.
  - assert (Ho : on_or_after_target (Date <$> group) = []).
    { apply elem_of_nil_inv. intros x Hx%Hcand. rewrite Hc in Hx.
      by apply elem_of_nil in Hx. }
    destruct (series_max_spec (Date <$> g)) as (d & Hd & Hin & Hmax).
    { intros Hnil%fmap_nil_inv. destruct group as [|r ?]; [done|].
      assert (r ∈ g) as Hr by (apply elem_of_sort_values_Date; left).
      rewrite Hnil in Hr. by apply elem_of_nil in Hr. }
    exists d. split; [done|]. simpl. split; [done|]. intros _.
    split; [by apply Hdates|]. intros x Hx. by apply Hmax, Hdates.
  - destruct (series_min_spec (Date <$> cand)) as (d & Hd & Hin & Hmin).
    { by intros Hnil%fmap_nil_inv. }
    exists d. split; [done|]. simpl. split.
    + intros _. split; [by apply Hcand|]. intros x Hx. by apply Hmin, Hcand.
    + intros Ho. apply Hcand in Hin. rewrite Ho in Hin.
      by apply elem_of_nil in Hin.
Qed.

Lemma invest_date_of_group_elem group d :
  invest_date_of_group group = Some d → d ∈ Date <$> group.
Proof.
  intros Hd. destruct (decide (group = [])) as [->|Hne]; [done|].
  destruct (invest_date_of_group_spec group Hne) as (d' & Hd' & Hmin & Hmax).
  simplify_eq. simpl in *.
  destruct (decide (on_or_after_target (Date <$> group) = [])) as [Ho|Ho].
  - by apply Hmax.
  - destruct (Hmin Ho) as [(_ & Hin)%list_elem_of_filter _]. done.
Qed.

(** ** Groups *)

Lemma elem_of_group_keys prices k :
  k ∈ group_keys prices ↔ k ∈ (λ r, ym (Date r)) <$> prices.
Proof.
  unfold group_keys. by rewrite merge_sort_Permutation, elem_of_remove_dups.
Qed.

Lemma NoDup_group_keys prices : NoDup (group_keys prices).
Proof.
  unfold group_keys. rewrite merge_sort_Permutation. apply NoDup_remove_dups.
Qed.

Lemma group_nonempty prices k :
  k ∈ group_keys prices → filter (λ r, ym (Date r) = k) prices ≠ [].
Proof.
  intros (r & -> & Hr)%elem_of_group_keys%list_elem_of_fmap Hnil.
  assert (r ∈ filter (λ r0, ym (Date r0) = ym (Date r)) prices) as Hin
    by (by apply list_elem_of_filter).
  rewrite Hnil in Hin. by apply elem_of_nil in Hin.
Qed.

Lemma group_dates prices k x :
  x ∈ Date <$> filter (λ r, ym (Date r) = k) prices
  ↔ x ∈ month_dates prices k.
Proof.
  unfold month_dates. rewrite list_elem_of_filter, !list_elem_of_fmap.
  setoid_rewrite list_elem_of_filter. split.
  - intros (r & -> & Hk & Hr). split; [done|by exists r].
  - intros (Hk & r & -> & Hr). by exists r.
Qed.

Lemma invest_date_of_group_is_Some prices k :
  k ∈ group_keys prices →
  ∃ d, invest_date_of_group (filter (λ r, ym (Date r) = k) prices) = Some d
       ∧ ym d = k.
Proof.
  intros Hk.
  destruct (invest_date_of_group_spec _ (group_nonempty _ _ Hk))
    as (d & Hd & _).
  exists d. split; [done|].
  apply invest_date_of_group_elem, group_dates in Hd.
  by apply list_elem_of_filter in Hd as [? _].
Qed.

(** The loop appends the date of every group: before sorting, the list
    has the keys of the groups, in their order. *)
Lemma ym_invest_dates_before_sort prices :
  ym <$> omap (λ kg, invest_date_of_group kg.2) (groupby_year_month prices)
  = group_keys prices.
Proof.
  unfold groupby_year_month.
  assert (Hsub : ∀ k, k ∈ group_keys prices → k ∈ group_keys prices)
    by done.
  revert Hsub. generalize (group_keys prices) at 1 3 4 as ks.
  induction ks as [|k ks IH]; intros Hsub; [done|].
  destruct (invest_date_of_group_is_Some prices k) as (d & Hd & Hk).
  { apply Hsub. left. }
  csimpl. simpl. rewrite Hd. csimpl. rewrite Hk. f_equal.
  apply IH. intros k' Hk'. apply Hsub. by right.
Qed.

Lemma invest_dates_Permutation prices :
  _get_monthly_investment_dates prices
  ≡ₚ omap (λ kg, invest_date_of_group kg.2) (groupby_year_month prices).
Proof.
  unfold _get_monthly_investment_dates, sorted. apply merge_sort_Permutation.
Qed.

Lemma ym_schedule_Permutation prices :
  ym <$> _get_monthly_investment_dates prices ≡ₚ group_keys prices.
Proof. by rewrite invest_dates_Permutation, ym_invest_dates_before_sort. Qed.

Lemma NoDup_ym_schedule prices :
  NoDup (ym <$> _get_monthly_investment_dates prices).
Proof. rewrite ym_schedule_Permutation. apply NoDup_group_keys. Qed.

Lemma NoDup_schedule prices : NoDup (_get_monthly_investment_dates prices).
Proof. eapply NoDup_fmap_1, NoDup_ym_schedule. Qed.

Lemma length_schedule prices :
  length (_get_monthly_investment_dates prices) = months_with_data prices.
Proof.
  rewrite <-(length_fmap ym), ym_schedule_Permutation.
  unfold group_keys, months_with_data. by rewrite merge_sort_Permutation.
Qed.

Lemma schedule_month_rule prices d :
  d ∈ _get_monthly_investment_dates prices → month_rule prices d.
Proof.
  rewrite invest_dates_Permutation.
  intros ([k g] & Hkg & Hd)%list_elem_of_omap. simpl in Hd.
  unfold groupby_year_month in Hkg.
  apply list_elem_of_fmap in Hkg as (k' & [= -> ->] & Hk).
  destruct (invest_date_of_group_is_Some prices k' Hk) as (d' & Hd' & Hym).
  assert (d' = d) as -> by congruence. clear Hd'.
  destruct (invest_date_of_group_spec _ (group_nonempty _ _ Hk))
    as (d' & Hd' & Hmin & Hmax).
  assert (d' = d) as -> by congruence. simpl in *.
  set (g := filter (λ r, ym (Date r) = k') prices) in *.
  assert (Hel : ∀ x, x ∈ on_or_after_target (Date <$> g)
                     ↔ x ∈ on_or_after_target (month_dates prices k')).
  { intros x. unfold on_or_after_target.
    rewrite !list_elem_of_filter. subst g. by rewrite group_dates. }
  unfold month_rule. rewrite Hym. simpl. split.
  - intros Hne. destruct Hmin as [Hin Hle].
    { intros Hnil. apply Hne, elem_of_nil_inv. intros x Hx%Hel.
      rewrite Hnil in Hx. by apply elem_of_nil in Hx. }
    split; [by apply Hel|]. intros x Hx. by apply Hle, Hel.
  - intros Hnil. destruct Hmax as [Hin Hle].
    { apply elem_of_nil_inv. intros x Hx%Hel.
      rewrite Hnil in Hx. by apply elem_of_nil in Hx. }
    split; [by apply group_dates|]. intros x Hx. by apply Hle, group_dates.
Qed.

Lemma schedule_subset prices d :
  d ∈ _get_monthly_investment_dates prices → d ∈ Date <$> prices.
Proof.
  intros [Hmin Hmax]%schedule_month_rule. simpl in *.
  destruct (decide (on_or_after_target (month_dates prices (ym d)) = []))
    as [Ho|Ho].
  - destruct (Hmax Ho) as [(_ & Hin)%list_elem_of_filter _]. done.
  - destruct (Hmin Ho) as [Hin _].
    apply list_elem_of_filter in Hin as (_ & Hin).
    by apply list_elem_of_filter in Hin as (_ & Hin).
Qed.

Lemma schedule_sorted prices :
  StronglySorted ts_le (_get_monthly_investment_dates prices).
Proof.
  unfold _get_monthly_investment_dates, sorted.
  apply StronglySorted_merge_sort; apply _.
Qed.

(** One date per month: the order is strict. *)
Lemma schedule_strictly_sorted prices :
  StronglySorted ts_lt (_get_monthly_investment_dates prices).
Proof.
  pose proof (schedule_sorted prices) as Hs.
  pose proof (NoDup_ym_schedule prices) as Hnd.
  induction Hs as [|d l Hs IH Hall]; [constructor|].
  csimpl in Hnd. apply NoDup_cons in Hnd as [Hd Hnd].
  constructor; [by apply IH|].
  apply Forall_forall. intros x Hx. apply ts_le_lt_ym.
  - by apply (proj1 (Forall_forall _ _) Hall).
  - intros Heq. apply Hd. rewrite Heq. by apply list_elem_of_fmap_2.
Qed.
End Selection.

Section Dca.
Context {F : Type} `{Float64 F}.
Implicit Types (prices rows : DataFrame F) (sched : list Timestamp)
  (st : dca_state F) (a : F * F).

Lemma length_dca_totals sched a rows :
  length (dca_totals sched a rows) = length rows.
Proof. revert a. induction rows as [|row rows IH]; intros a; simpl; auto. Qed.

(** One iteration either raises [ZeroDivisionError], on a schedule date
    with a zero price, or moves the totals by [next_totals] and appends
    to the three lists. *)
Lemma dca_step_spec sched st row :
  let a' := next_totals sched (total_units st, total_invested st) row in
  if bool_decide (Date row ∈ sched) && f_is_zero (adj_close row)
  then dca_step sched st row = inl ZeroDivisionError
  else dca_step sched st row =
       inr {| total_units := a'.1; total_invested := a'.2;
              units_list := units_list st ++ [a'.1];
              invested_list := invested_list st ++ [a'.2];
              value_list := value_list st ++ [f_mul a'.1 (adj_close row)] |}.
Proof.
  unfold dca_step, next_totals, py_truediv. simpl.
  destruct (bool_decide (Date row ∈ sched)); simpl; [|done].
  destruct (f_is_zero (adj_close row)); done.
Qed.

Lemma dca_loop_inr sched st rows st' :
  dca_loop sched st rows = inr st' →
  let tr := dca_totals sched (total_units st, total_invested st) rows in
  units_list st' = units_list st ++ tr.*1 ∧
  invested_list st' = invested_list st ++ tr.*2 ∧
  value_list st' =
    value_list st ++ zip_with (λ a row, f_mul a.1 (adj_close row)) tr rows.
Proof.
  revert st. induction rows as [|row rows IH]; intros st; simpl.
  - intros [= <-]. by rewrite !app_nil_r.
  - pose proof (dca_step_spec sched st row) as Hstep. simpl in Hstep.
    destruct (bool_decide _ && _); rewrite Hstep.
    { intros Hc. inversion Hc. }
    intros Hloop. apply IH in Hloop. simpl in Hloop.
    rewrite <-surjective_pairing in Hloop.
    destruct Hloop as (Hu & Hi & Hv). rewrite Hu, Hi, Hv.
    by rewrite <-!app_assoc.
Qed.

Lemma dca_loop_inl sched st rows e :
  dca_loop sched st rows = inl e →
  e = ZeroDivisionError ∧ ¬ no_zero_divisor sched rows.
Proof.
  revert st. induction rows as [|row rows IH]; intros st; simpl; [done|].
  pose proof (dca_step_spec sched st row) as Hstep. simpl in Hstep.
  destruct (bool_decide _ && _) eqn:Hz; rewrite Hstep.
  - intros [= <-]. split; [done|]. intros Hnz.
    apply andb_true_iff in Hz as [Hin%bool_decide_eq_true Hzero].
    rewrite (Hnz row) in Hzero; [done|left|done].
  - simpl. intros [-> Hnz]%IH. split; [done|]. intros Hnz'. apply Hnz.
    intros r Hr. apply Hnz'. by right.
Qed.

Lemma dca_loop_inr_no_zero sched st rows st' :
  dca_loop sched st rows = inr st' → no_zero_divisor sched rows.
Proof.
  revert st. induction rows as [|row rows IH]; intros st; simpl.
  - intros _ r Hr. by apply elem_of_nil in Hr.
  - pose proof (dca_step_spec sched st row) as Hstep. simpl in Hstep.
    destruct (bool_decide _ && _) eqn:Hz; rewrite Hstep.
    { intros Hc. inversion Hc. }
    intros Hnz%IH r [->|Hr]%elem_of_cons Hin; [|by apply Hnz].
    destruct (f_is_zero (adj_close row)); [|done].
    by rewrite bool_decide_true in Hz.
Qed.

Lemma dca_loop_returns sched st rows :
  no_zero_divisor sched rows → returns (dca_loop sched st rows).
Proof.
  intros Hnz. destruct (dca_loop sched st rows) as [e|st'] eqn:Hloop.
  - by apply dca_loop_inl in Hloop as [_ []].
  - by exists st'.
Qed.

(** The assignment of the three columns. *)
Lemma zip_columns_totals tk strat rows (tr : list (F * F)) :
  length tr = length rows →
  zip_columns tk strat rows tr.*1 tr.*2
    (zip_with (λ a row, f_mul a.1 (adj_close row)) tr rows)
  = zip_with (λ row a,
      {| eq_Date := Date row; eq_ticker := tk; eq_strategy := strat;
         units := a.1; invested_amount := a.2;
         portfolio_value := f_mul a.1 (adj_close row) |}) rows tr.
Proof.
  revert tr. induction rows as [|row rows IH]; intros [|a tr]; simpl; try done.
  intros [= Hlen]. by rewrite IH.
Qed.

(** [simulate_dca] returns the rows built from [dca_totals]. *)
Lemma simulate_dca_inr prices tk res :
  simulate_dca prices tk = inr res →
  let sched := _get_monthly_investment_dates prices in
  no_zero_divisor sched prices ∧
  res = {| df_equity :=
             zip_with (λ row a,
               {| eq_Date := Date row; eq_ticker := tk; eq_strategy := "DCA";
                  units := a.1; invested_amount := a.2;
                  portfolio_value := f_mul a.1 (adj_close row) |})
               prices (dca_totals sched (f_lit 0, f_lit 0) prices);
           name := "DCA"; ticker := tk |}.
Proof.
  intros Hsim. unfold simulate_dca in Hsim.
  destruct (dca_loop _ dca_init prices) as [e|st] eqn:Hloop; [done|].
  split; [by eapply dca_loop_inr_no_zero|].
  apply dca_loop_inr in Hloop. simpl in Hloop.
  destruct Hloop as (Hu & Hi & Hv).
  unfold mbind, exn_bind, assign_columns in Hsim.
  rewrite Hu, Hi, Hv in Hsim. rewrite bool_decide_true in Hsim.
  2:{ rewrite !length_fmap, length_zip_with, length_dca_totals. lia. }
  injection Hsim as <-. f_equal.
  apply zip_columns_totals, length_dca_totals.
Qed.
End Dca.

Section DcaRun.
Context {F : Type} `{Float64 F}.
Implicit Types (prices rows : DataFrame F) (sched : list Timestamp)
  (a : F * F).

Lemma simulate_dca_returns prices tk :
  no_zero_divisor (_get_monthly_investment_dates prices) prices →
  returns (simulate_dca prices tk).
Proof.
  intros Hnz. unfold simulate_dca.
  destruct (dca_loop_returns _ dca_init prices Hnz) as [st Hloop].
  rewrite Hloop. apply dca_loop_inr in Hloop as (Hu & Hi & Hv).
  unfold mbind, exn_bind, assign_columns.
  rewrite bool_decide_true; [by eexists|].
  simpl in *. rewrite Hu, Hi, Hv.
  rewrite !length_fmap, length_zip_with, length_dca_totals. lia.
Qed.

Lemma simulate_dca_inl prices tk e :
  simulate_dca prices tk = inl e →
  e = ZeroDivisionError ∧
  ∃ row, row ∈ prices ∧ Date row ∈ _get_monthly_investment_dates prices
         ∧ f_is_zero (adj_close row) = true.
Proof.
  intros Hsim.
  set (sched := _get_monthly_investment_dates prices) in *.
  destruct (decide (Forall (λ row, Date row ∈ sched
                                   → f_is_zero (adj_close row) = false)
                      prices)) as [Hall|Hex].
  - destruct (simulate_dca_returns prices tk) as [res Hres]; [|congruence].
    intros row Hrow. by apply (proj1 (Forall_forall _ _) Hall).
  - split.
    + unfold simulate_dca in Hsim. fold sched in Hsim.
      destruct (dca_loop sched dca_init prices) as [e'|st] eqn:Hloop.
      * apply dca_loop_inl in Hloop as [-> _]. by injection Hsim as <-.
      * exfalso. apply Hex, Forall_forall. intros row Hrow.
        by eapply dca_loop_inr_no_zero.
    + apply not_Forall_Exists in Hex; [|apply _].
      apply Exists_exists in Hex as (row & Hrow & Hnot). simpl in Hnot.
      exists row. split; [done|].
      destruct (decide (Date row ∈ sched)) as [Hin|Hin].
      2:{ exfalso. apply Hnot. intros Hc. by destruct Hin. }
      split; [done|]. destruct (f_is_zero (adj_close row)) eqn:Hz; [done|].
      exfalso. apply Hnot. by intros _.
Qed.

Lemma accumulators_simulate_dca prices tk res :
  simulate_dca prices tk = inr res →
  accumulators res =
  (f_lit 0, f_lit 0)
  :: dca_totals (_get_monthly_investment_dates prices) (f_lit 0, f_lit 0)
       prices.
Proof.
  intros [_ ->]%simulate_dca_inr. unfold accumulators. simpl. f_equal.
  generalize (f_lit 0, f_lit 0) as a.
  generalize (_get_monthly_investment_dates prices) as sched.
  intros sched. induction prices as [|row rows IH]; intros a; simpl; [done|].
  csimpl. rewrite IH. by rewrite <-surjective_pairing.
Qed.

(** Consecutive states of a run are related by [next_totals]. *)
Lemma dca_totals_lookup sched a0 rows i a row :
  (a0 :: dca_totals sched a0 rows) !! i = Some a →
  rows !! i = Some row →
  (a0 :: dca_totals sched a0 rows) !! S i = Some (next_totals sched a row).
Proof.
  revert a0 i. induction rows as [|r rows IH]; intros a0 i; [done|].
  destruct i as [|i]; simpl.
  - by intros [= ->] [= ->].
  - intros Ha Hrow. by apply (IH _ i).
Qed.

Lemma accumulators_step prices tk res i a row :
  simulate_dca prices tk = inr res →
  accumulators res !! i = Some a →
  prices !! i = Some row →
  accumulators res !! S i
  = Some (next_totals (_get_monthly_investment_dates prices) a row).
Proof.
  intros ->%accumulators_simulate_dca. apply dca_totals_lookup.
Qed.

Lemma Forall2_zip_with_r {A B C} (P : A → C → Prop) (g : A → B → C)
    (l : list A) (k : list B) :
  length k = length l → (∀ x y, P x (g x y)) →
  Forall2 P l (zip_with g l k).
Proof.
  intros Hlen HP. revert k Hlen.
  induction l as [|x l IH]; intros [|y k]; simpl; try done.
  intros [= Hlen]. constructor; auto.
Qed.

(** The invested total after a run: one contribution per purchase row. *)
Lemma last_dca_totals sched a0 rows :
  (default a0 (last (dca_totals sched a0 rows))).2
  = Nat.iter (length (filter (λ r, Date r ∈ sched) rows))
      (λ x, f_add x MONTHLY_CONTRIBUTION) a0.2.
Proof.
  revert a0. induction rows as [|row rows IH]; intros a0; [done|].
  simpl dca_totals. rewrite last_cons.
  assert (Hnext :
    Nat.iter (length (filter (λ r, Date r ∈ sched) (row :: rows)))
      (λ x, f_add x MONTHLY_CONTRIBUTION) a0.2
    = Nat.iter (length (filter (λ r, Date r ∈ sched) rows))
        (λ x, f_add x MONTHLY_CONTRIBUTION) (next_totals sched a0 row).2).
  { unfold next_totals. destruct (decide (Date row ∈ sched)) as [Hin|Hin].
    - rewrite bool_decide_true, filter_cons_True by done.
      simpl length. by rewrite Nat.iter_succ_r.
    - by rewrite bool_decide_false, filter_cons_False by done. }
  etrans; [|exact (eq_sym Hnext)].
  etrans; [|exact (IH _)].
  by destruct (last (dca_totals sched (next_totals sched a0 row) rows)).
Qed.

Lemma iter_contribution `{!ExactContribution F} (n : nat) :
  Nat.iter n (λ x, f_add x MONTHLY_CONTRIBUTION) (f_lit 0)
  = f_mul MONTHLY_CONTRIBUTION (f_lit (Z.of_nat n)).
Proof.
  induction n as [|n IH].
  - simpl. symmetry. apply contribution_times_0.
  - rewrite Nat2Z.inj_succ, <-Z.add_1_r, contribution_times_succ by lia.
    simpl. by rewrite IH.
Qed.

Lemma NoDup_fmap_eq {A B} (f : A → B) (l : list A) x y :
  NoDup (f <$> l) → x ∈ l → y ∈ l → f x = f y → x = y.
Proof.
  induction l as [|z l IH]; csimpl; [by intros _ ?%elem_of_nil|].
  intros [Hz Hnd]%NoDup_cons [->|Hx]%elem_of_cons [->|Hy]%elem_of_cons Heq;
    auto.
  - destruct Hz. rewrite Heq. by apply list_elem_of_fmap_2.
  - destruct Hz. rewrite <-Heq. by apply list_elem_of_fmap_2.
Qed.


(** With pairwise distinct dates, there is one purchase row per month. *)
Lemma length_purchase_rows prices :
  NoDup (Date <$> prices) →
  length (purchase_rows prices) = months_with_data prices.
Proof.
  intros Hnd. rewrite <-length_schedule. unfold purchase_rows.
  set (sched := _get_monthly_investment_dates prices).
  rewrite <-(length_fmap Date). apply Permutation_length, NoDup_Permutation.
  - apply NoDup_fmap_2_strong; [|by apply NoDup_filter, (NoDup_fmap_1 Date)].
    intros x y [_ Hx]%list_elem_of_filter [_ Hy]%list_elem_of_filter.
    by apply (NoDup_fmap_eq Date prices).
  - apply NoDup_schedule.
  - intros d. rewrite list_elem_of_fmap.
    setoid_rewrite list_elem_of_filter. split.
    + by intros (r & -> & Hin & _).
    + intros Hd.
      pose proof (schedule_subset prices d Hd) as Hin.
      apply list_elem_of_fmap in Hin as (r & -> & Hr).
      by exists r.
Qed.
End DcaRun.

Section Curves.
Context {F : Type} `{Float64 F}.
Implicit Types (prices : DataFrame F) (tk : string).

Lemma simulate_lump_sum_cons (row0 : Row F) rest tk :
  simulate_lump_sum (row0 :: rest) tk
  = inr {| df_equity :=
             (λ row, {| eq_Date := Date row; eq_ticker := tk;
                        eq_strategy := "Lump Sum";
                        units := f_div INITIAL_CAPITAL (adj_close row0);
                        invested_amount := INITIAL_CAPITAL;
                        portfolio_value :=
                          f_mul (f_div INITIAL_CAPITAL (adj_close row0))
                                (adj_close row) |})
             <$> row0 :: rest;
           name := "Lump Sum"; ticker := tk |}.
Proof. reflexivity. Qed.

Lemma simulate_dca_rows prices tk res :
  simulate_dca prices tk = inr res →
  Forall2 (λ row e, eq_Date e = Date row ∧
                    portfolio_value e = f_mul (units e) (adj_close row))
    prices (df_equity res).
Proof.
  intros [_ ->]%simulate_dca_inr. simpl.
  apply Forall2_zip_with_r; [apply length_dca_totals|done].
Qed.

Lemma Forall2_dates prices (es : list (EquityRecord F))
    (P : Row F → EquityRecord F → Prop) :
  Forall2 (λ row e, eq_Date e = Date row ∧ P row e) prices es →
  eq_Date <$> es = Date <$> prices.
Proof.
  induction 1 as [|row e rows es' [Hd _] _ IH]; [done|].
  csimpl. by rewrite Hd, IH.
Qed.
End Curves.

Section Aggregator.
Context {F : Type} `{Float64 F}.
Implicit Types (conn : Connection F) (tickers : list string) (tk : string).

Lemma run_loop_raises tickers conn acc tk :
  tk ∈ tickers → simulation_fails conn tk →
  raises (run_loop tickers conn acc).
Proof.
  intros Htk Hfail. revert acc.
  induction Htk as [tk rest|tk tk0 rest Htk IH]; intros acc; simpl.
  - destruct Hfail as [[e He]|[e He]]; rewrite He.
    + by exists e.
    + destruct (simulate_lump_sum _ tk); by eexists.
  - destruct (simulate_lump_sum _ tk0); [by eexists|].
    destruct (simulate_dca _ tk0); [by eexists|]. by apply IH.
Qed.

Lemma run_loop_returns tickers conn acc :
  (∀ tk, tk ∈ tickers → ¬ simulation_fails conn tk) →
  run_loop tickers conn acc
  = inr (acc ++ (tickers ≫= λ tk,
           [curve (simulate_lump_sum (get_price_series tk conn) tk);
            curve (simulate_dca (get_price_series tk conn) tk)])).
Proof.
  revert acc. induction tickers as [|tk rest IH]; intros acc Hok; simpl.
  - by rewrite app_nil_r.
  - assert (¬ simulation_fails conn tk) as Htk by (apply Hok; left).
    unfold simulation_fails in Htk.
    destruct (simulate_lump_sum _ tk) as [e|lump];
      [destruct Htk; left; by exists e|].
    destruct (simulate_dca _ tk) as [e|dca];
      [destruct Htk; right; by exists e|].
    simpl. rewrite IH by (intros tk' ?; apply Hok; by right).
    by rewrite <-app_assoc.
Qed.

Lemma concat_bind_pair {A B} (f g : A → list B) (l : list A) :
  concat (l ≫= λ x, [f x; g x]) = l ≫= λ x, f x ++ g x.
Proof.
  induction l as [|x l IH]; [done|]. csimpl.
  by rewrite IH, <-app_assoc.
Qed.

(** The two simulations of one instrument: they fail with
    [exception_of], or both return. *)
Lemma instrument_outcome conn tk :
  let s := get_price_series tk conn in
  (simulation_fails conn tk ∧
   ∀ A (k : StrategyResult F → StrategyResult F → exn + A),
     (lump ← simulate_lump_sum s tk; dca ← simulate_dca s tk; k lump dca)
     = inl (exception_of conn tk)) ∨
  (¬ simulation_fails conn tk ∧
   ∃ lump dca,
     simulate_lump_sum s tk = inr lump ∧ simulate_dca s tk = inr dca).
Proof.
  unfold simulation_fails, exception_of. simpl.
  destruct (get_price_series tk conn) as [|row0 rest] eqn:Hs.
  - left. split; [left; by exists KeyError|done].
  - rewrite simulate_lump_sum_cons.
    destruct (simulate_dca (row0 :: rest) tk) as [e|dca] eqn:Hdca.
    + apply simulate_dca_inl in Hdca as [-> _]. left.
      split; [right; by exists ZeroDivisionError|done].
    + right. split; [|by eexists _, _].
      intros [[e He]|[e He]]; done.
Qed.

Lemma run_loop_inl tickers conn acc e :
  run_loop tickers conn acc = inl e ↔
  ∃ pre tk post, tickers = pre ++ tk :: post ∧
    (∀ t, t ∈ pre → ¬ simulation_fails conn t) ∧
    simulation_fails conn tk ∧ e = exception_of conn tk.
Proof.
  revert acc. induction tickers as [|t rest IH]; intros acc.
  - split; [done|]. intros (pre & tk & post & Heq & _).
    by destruct pre.
  - simpl. destruct (instrument_outcome conn t) as [[Hf He]|[Hok Hret]].
    + rewrite He. split.
      * intros [= <-]. exists [], t, rest. split; [done|].
        split; [|done]. intros t' Ht'. by apply elem_of_nil in Ht'.
      * intros (pre & tk & post & Heq & Hpre & Hfail & ->).
        destruct pre as [|t0 pre]; simpl in Heq; injection Heq as -> ->;
          [done|].
        destruct (Hpre t0); [left|done].
    + destruct Hret as (lump & dca & -> & ->). simpl. rewrite IH. split.
      * intros (pre & tk & post & -> & Hpre & Hfail & ->).
        exists (t :: pre), tk, post. split; [done|]. split; [|done].
        intros t0 [->|Ht0]%elem_of_cons; [done|by apply Hpre].
      * intros (pre & tk & post & Heq & Hpre & Hfail & ->).
        destruct pre as [|t0 pre]; simpl in Heq; injection Heq as -> ->;
          [done|].
        exists pre, tk, post. split; [done|]. split; [|done].
        intros t1 Ht1. apply Hpre. by right.
Qed.

Lemma run_loop_inr_ok tickers conn acc all :
  run_loop tickers conn acc = inr all →
  ∀ tk, tk ∈ tickers → ¬ simulation_fails conn tk.
Proof.
  intros Hrun tk Htk Hfail.
  destruct (run_loop_raises tickers conn acc tk Htk Hfail) as [e He].
  congruence.
Qed.

Lemma run_simulations_inl tickers conn e :
  run_simulations tickers conn = inl e ↔
  (tickers = [] ∧ e = ValueError) ∨
  ∃ pre tk post, tickers = pre ++ tk :: post ∧
    (∀ t, t ∈ pre → ¬ simulation_fails conn t) ∧
    simulation_fails conn tk ∧ e = exception_of conn tk.
Proof.
  unfold run_simulations.
  destruct (run_loop tickers conn []) as [e'|all] eqn:Hrun.
  - simpl. split.
    + intros [= <-]. right. by apply run_loop_inl in Hrun.
    + intros [[-> _]|Hex]; [done|].
      apply (run_loop_inl tickers conn []) in Hex. congruence.
  - pose proof (run_loop_inr_ok _ _ _ _ Hrun) as Hok.
    rewrite run_loop_returns in Hrun by done. injection Hrun as <-.
    simpl. destruct tickers as [|t rest]; simpl.
    + split; [intros [= <-]; by left|].
      intros [[_ ->]|(pre & tk & post & Heq & _)]; [done|by destruct pre].
    + split; [done|]. intros [[? _]|(pre & tk & post & Heq & _ & Hf & _)];
        [done|].
      destruct (Hok tk); [|done]. rewrite Heq.
      apply elem_of_app. right. left.
Qed.
End Aggregator.

(** ** Binary64: order, sums and quotients of numbers at least zero

    The rounding of [SpecFloat] on a positive mantissa, then [B64.add] and
    [B64.div] on the numbers of [B64.nonneg] and [B64.pos]. *)

Lemma digits2_pos_size (m : positive) : digits2_pos m = Pos.size m.
Proof. induction m as [m IH|m IH|]; simpl; by rewrite ?IH. Qed.

Lemma digits2_log2 (m : positive) :
  Z.pos (digits2_pos m) = Z.log2 (Z.pos m) + 1.
Proof.
  rewrite digits2_pos_size. destruct m as [m|m|]; simpl; lia.
Qed.

Lemma fexp_b64 (e : Z) : fexp 53 1024 e = Z.max (e - 53) (-1074).
Proof. reflexivity. Qed.

Lemma bounded_b64 (m : positive) (e : Z) :
  bounded 53 1024 m e = true ↔
  e = Z.max (Z.log2 (Z.pos m) + 1 + e - 53) (-1074) ∧ e ≤ 971.
Proof.
  unfold bounded, canonical_mantissa.
  rewrite andb_true_iff, Z.eqb_eq, Z.leb_le, fexp_b64, digits2_log2.
  change (1024 - 53) with 971. lia.
Qed.

Lemma iter_pos_shr_1 (p : positive) (mrs : shr_record) :
  0 ≤ shr_m mrs →
  shr_m (SpecFloat.iter_pos shr_1 p mrs) = Z.shiftr (shr_m mrs) (Z.pos p).
Proof.
  assert (H1 : ∀ mrs, 0 ≤ shr_m mrs →
            shr_m (shr_1 mrs) = Z.shiftr (shr_m mrs) 1 ∧ 0 ≤ shr_m (shr_1 mrs)).
  { intros [m r s] Hm. simpl in Hm.
    assert (shr_m (shr_1 {| shr_m := m; shr_r := r; shr_s := s |}) = m / 2)
      as Hdiv.
    { destruct m as [|[q|q|]|q]; simpl; [done| | |done|lia].
      - apply Z.div_unique with 1; lia.
      - apply Z.div_unique with 0; lia. }
    rewrite Hdiv, Z.shiftr_div_pow2 by lia. change (2 ^ 1) with 2.
    split; [done|]. apply Z.div_pos; lia. }
  revert mrs. induction p as [p IH|p IH|]; intros mrs Hm; simpl.
  - destruct (H1 mrs Hm) as [E1 P1].
    rewrite IH; [rewrite IH by done|rewrite IH by done; apply Z.shiftr_nonneg; lia].
    rewrite E1, !Z.shiftr_shiftr by lia. f_equal. lia.
  - rewrite IH; [rewrite IH by done|rewrite IH by done; apply Z.shiftr_nonneg; lia].
    rewrite !Z.shiftr_shiftr by lia. f_equal. lia.
  - by apply H1.
Qed.

Lemma shr_spec (m : Z) (l : location) (e n : Z) :
  0 ≤ m → 0 ≤ n →
  let '(mrs, e') := shr (shr_record_of_loc m l) e n in
  shr_m mrs = m / 2 ^ n ∧ e' = e + n.
Proof.
  intros Hm Hn.
  assert (shr_m (shr_record_of_loc m l) = m) as Hrec
    by (by destruct l as [|[]]).
  destruct n as [|p|p]; simpl; [| |lia].
  - rewrite Hrec, Z.div_1_r. lia.
  - rewrite iter_pos_shr_1 by (rewrite Hrec; lia).
    rewrite Hrec, Z.shiftr_div_pow2 by lia. done.
Qed.

Lemma round_nearest_even_bounds (m : Z) (l : location) :
  m ≤ round_nearest_even m l ≤ m + 1.
Proof.
  destruct l as [|[]]; simpl; [lia| |lia|lia]. destruct (Z.even m); lia.
Qed.

Lemma log2_div_pow2 (m n : Z) :
  0 < m → 0 ≤ n ≤ Z.log2 m →
  0 < m / 2 ^ n ∧ Z.log2 (m / 2 ^ n) = Z.log2 m - n.
Proof.
  intros Hm Hn. rewrite <-Z.shiftr_div_pow2 by lia.
  rewrite Z.log2_shiftr by lia. split; [|lia].
  rewrite Z.shiftr_div_pow2 by lia.
  apply Z.div_str_pos. split; [apply Z.pow_pos_nonneg; lia|].
  transitivity (2 ^ Z.log2 m); [apply Z.pow_le_mono_r; lia|].
  apply Z.log2_spec. lia.
Qed.

(** A sum at most one above [m] has the digits of [m], or is the next
    power of two. *)
Lemma log2_round (m m' : Z) :
  0 < m → m ≤ m' ≤ m + 1 →
  Z.log2 m' = Z.log2 m ∨ (Z.log2 m' = Z.log2 m + 1 ∧ m' = 2 ^ (Z.log2 m + 1)).
Proof.
  intros Hm Hm'.
  pose proof (Z.log2_le_mono m m' ltac:(lia)) as Hlo.
  pose proof (Z.log2_spec m Hm) as [_ Hup].
  pose proof (Z.log2_spec m' ltac:(lia)) as [Hlo' _].
  pose proof (Z.log2_nonneg m) as Hnn.
  destruct (decide (Z.log2 m' = Z.log2 m)) as [|Hne]; [by left|right].
  assert (2 ^ (Z.log2 m + 1) ≤ 2 ^ Z.log2 m')
    by (apply Z.pow_le_mono_r; lia).
  replace (Z.succ (Z.log2 m)) with (Z.log2 m + 1) in Hup by lia.
  assert (m' = 2 ^ (Z.log2 m + 1)) as Heq by lia.
  split; [|done]. rewrite Heq at 1. rewrite Z.log2_pow2; lia.
Qed.

(** Rounding a positive mantissa that carries enough digits: the result is
    [+inf] or a positive binary64 number whose exponent is the canonical
    one of the input, with at least the truncated mantissa, or the next
    exponent. *)
Lemma binary_round_aux_pos (mx : positive) (ex : Z) (lx : location) :
  -1074 ≤ ex →
  ex ≤ fexp 53 1024 (Z.log2 (Z.pos mx) + 1 + ex) →
  let e1 := fexp 53 1024 (Z.log2 (Z.pos mx) + 1 + ex) in
  binary_round_aux 53 1024 false (Z.pos mx) ex lx = S754_infinity false ∨
  ∃ m e,
    binary_round_aux 53 1024 false (Z.pos mx) ex lx = S754_finite false m e ∧
    bounded 53 1024 m e = true ∧
    ((e = e1 ∧ Z.pos mx / 2 ^ (e1 - ex) ≤ Z.pos m) ∨ e = e1 + 1).
Proof.
  intros Hex Hprec e1. unfold binary_round_aux, shr_fexp.
  change (Zdigits2 (Z.pos mx)) with (Z.pos (digits2_pos mx)).
  rewrite digits2_log2. fold e1.
  set (d := Z.log2 (Z.pos mx) + 1) in *.
  pose proof (Z.log2_nonneg (Z.pos mx)) as Hd0.
  assert (He1 : e1 = Z.max (d + ex - 53) (-1074)) by apply fexp_b64.
  set (n := e1 - ex) in *.
  assert (Hn : 0 ≤ n ≤ Z.log2 (Z.pos mx)) by lia.
  pose proof (shr_spec (Z.pos mx) lx ex n ltac:(lia) ltac:(lia)) as Hshr.
  destruct (shr (shr_record_of_loc (Z.pos mx) lx) ex n) as [mrs' e'].
  destruct Hshr as [Hm1 ->].
  destruct (log2_div_pow2 (Z.pos mx) n ltac:(lia) Hn) as [Hpos1 Hlog1].
  set (m1 := Z.pos mx / 2 ^ n) in *.
  pose proof (round_nearest_even_bounds m1 (loc_of_shr_record mrs')) as Hr.
  rewrite Hm1.
  set (m2 := round_nearest_even m1 (loc_of_shr_record mrs')) in *.
  destruct m2 as [|p2|p2] eqn:Hm2; [lia| |lia].
  change (Zdigits2 (Z.pos p2)) with (Z.pos (digits2_pos p2)).
  rewrite digits2_log2, fexp_b64.
  replace (ex + n) with e1 by lia.
  set (n2 := Z.max (Z.log2 (Z.pos p2) + 1 + e1 - 53) (-1074) - e1).
  destruct (log2_round m1 (Z.pos p2) Hpos1 Hr) as [Hl|[Hl Hpow]].
  - (* no carry *)
    assert (n2 = 0) as -> by lia.
    pose proof (shr_spec (Z.pos p2) loc_Exact e1 0 ltac:(lia) ltac:(lia)) as Hs2.
    destruct (shr (shr_record_of_loc (Z.pos p2) loc_Exact) e1 0) as [mrs'' e''].
    destruct Hs2 as [Hm'' ->]. rewrite Hm'', Z.div_1_r.
    replace (e1 + 0) with e1 by lia.
    destruct (Z.leb_spec e1 (1024 - 53)) as [Hle|Hgt]; [right|by left].
    exists p2, e1. split; [done|]. split; [|left; lia].
    apply bounded_b64. lia.
  - destruct (decide (d - n = 53)) as [Hnorm|Hsub].
    + (* carry to the next binade *)
      assert (n2 = 1) as -> by lia.
      pose proof (shr_spec (Z.pos p2) loc_Exact e1 1 ltac:(lia) ltac:(lia)) as Hs2.
      destruct (shr (shr_record_of_loc (Z.pos p2) loc_Exact) e1 1) as [mrs'' e''].
      destruct Hs2 as [Hm'' ->]. rewrite Hm''.
      assert (Z.pos p2 / 2 ^ 1 = 2 ^ 52) as ->.
      { rewrite Hpow. replace (Z.log2 m1 + 1) with 53 by lia. done. }
      change (2 ^ 52) with (Z.pos 4503599627370496).
      destruct (Z.leb_spec (e1 + 1) (1024 - 53)) as [Hle|Hgt]; [right|by left].
      exists 4503599627370496%positive, (e1 + 1). split; [done|].
      split; [|by right]. apply bounded_b64.
      change (Z.log2 (Z.pos 4503599627370496)) with 52. lia.
    + (* carry among the subnormal numbers *)
      assert (n2 = 0) as -> by lia.
      pose proof (shr_spec (Z.pos p2) loc_Exact e1 0 ltac:(lia) ltac:(lia)) as Hs2.
      destruct (shr (shr_record_of_loc (Z.pos p2) loc_Exact) e1 0) as [mrs'' e''].
      destruct Hs2 as [Hm'' ->]. rewrite Hm'', Z.div_1_r.
      replace (e1 + 0) with e1 by lia.
      destruct (Z.leb_spec e1 (1024 - 53)) as [Hle|Hgt]; [right|by left].
      exists p2, e1. split; [done|]. split; [|left; lia].
      apply bounded_b64. lia.
Qed.

Lemma pos_iter_xO (m d : positive) :
  Z.pos (Pos.iter xO m d) = Z.pos m * 2 ^ Z.pos d.
Proof.
  induction d as [|d IH] using Pos.peano_ind.
  - simpl. lia.
  - rewrite Pos.iter_succ, Pos2Z.inj_xO, IH, Pos2Z.inj_succ, Z.pow_succ_r; lia.
Qed.

Lemma shl_align_spec (mx : positive) (ex ex' : Z) :
  let '(m, e) := shl_align mx ex ex' in
  e = Z.min ex ex' ∧ Z.pos m = Z.pos mx * 2 ^ (ex - e).
Proof.
  unfold shl_align. destruct (ex' - ex) as [|d|d] eqn:Hd.
  - replace (ex - ex) with 0 by lia. simpl. lia.
  - replace (ex - ex) with 0 by lia. simpl. lia.
  - rewrite pos_iter_xO. replace (ex - ex') with (Z.pos d) by lia. lia.
Qed.

Lemma leb_finite (m1 : positive) (e1 : Z) (m2 : positive) (e2 : Z) :
  B64.leb (S754_finite false m1 e1) (S754_finite false m2 e2) = true ↔
  e1 < e2 ∨ (e1 = e2 ∧ Z.pos m1 ≤ Z.pos m2).
Proof.
  unfold B64.leb, SFleb, SFcompare.
  destruct (Z.compare_spec e1 e2) as [->|Hlt|Hgt].
  - change (Pos.compare_cont Eq m1 m2) with (Z.pos m1 ?= Z.pos m2).
    destruct (Z.compare_spec (Z.pos m1) (Z.pos m2)); split; (done || lia).
  - split; [lia|done].
  - split; [done|lia].
Qed.

Lemma nonneg_cases (x : B64.t) :
  B64.nonneg x ↔
  (∃ s, x = S754_zero s) ∨ x = S754_infinity false ∨
  ∃ m e, x = S754_finite false m e ∧ bounded 53 1024 m e = true.
Proof.
  unfold B64.nonneg, B64.valid. split.
  - intros [Hv Hle]. destruct x as [s|[]| |[] m e]; try done.
    + left. by exists s.
    + by right; left.
    + right; right. by exists m, e.
  - intros [[s ->]|[->|(m & e & -> & Hb)]]; by destruct_and?.
Qed.

Lemma pos_cases (x : B64.t) :
  B64.pos x ↔
  x = S754_infinity false ∨
  ∃ m e, x = S754_finite false m e ∧ bounded 53 1024 m e = true.
Proof.
  unfold B64.pos, B64.valid. split.
  - intros [Hv Hle]. destruct x as [s|[]| |[] m e]; try done.
    + by left.
    + right. by exists m, e.
  - intros [->|(m & e & -> & Hb)]; done.
Qed.

Lemma leb_refl (x : B64.t) : B64.nonneg x → B64.leb x x = true.
Proof.
  intros [[s ->]|[->|(m & e & -> & Hb)]]%nonneg_cases.
  - done.
  - done.
  - apply leb_finite. lia.
Qed.

(** The sum of two positive numbers of the format is [+inf] or a positive
    number of the format that is not below the first. *)
Lemma add_finite (mx : positive) (ex : Z) (my : positive) (ey : Z) :
  bounded 53 1024 mx ex = true → bounded 53 1024 my ey = true →
  let z := B64.add (S754_finite false mx ex) (S754_finite false my ey) in
  z = S754_infinity false ∨
  ∃ m e, z = S754_finite false m e ∧ bounded 53 1024 m e = true ∧
    (ex < e ∨ (ex = e ∧ Z.pos mx ≤ Z.pos m)).
Proof.
  intros [Hcx Hbx]%bounded_b64 [Hcy Hby]%bounded_b64.
  unfold B64.add, B64.prec, B64.emax, SFadd, cond_Zopp. cbv zeta.
  set (ez := Z.min ex ey).
  pose proof (shl_align_spec mx ex ez) as Hx.
  pose proof (shl_align_spec my ey ez) as Hy.
  destruct (shl_align mx ex ez) as [mx' ex'].
  destruct (shl_align my ey ez) as [my' ey'].
  destruct Hx as [-> Hmx], Hy as [-> Hmy]. cbn [fst].
  replace (Z.min ex ez) with ez in Hmx by lia.
  replace (Z.min ey ez) with ez in Hmy by lia.
  change (Z.pos mx' + Z.pos my') with (Z.pos (mx' + my')).
  unfold binary_normalize, binary_round.
  set (pm := (mx' + my')%positive).
  assert (HM : Z.pos pm = Z.pos mx' + Z.pos my') by done.
  rewrite digits2_log2.
  set (E := fexp 53 1024 (Z.log2 (Z.pos pm) + 1 + ez)).
  pose proof (shl_align_spec pm ez E) as Hz.
  destruct (shl_align pm ez E) as [mz ez'].
  destruct Hz as [-> Hmz].
  assert (HE : E = Z.max (Z.log2 (Z.pos pm) + 1 + ez - 53) (-1074))
    by apply fexp_b64.
  assert (Hlogx : Z.log2 (Z.pos mx) + (ex - ez) ≤ Z.log2 (Z.pos pm)).
  { pose proof (Z.log2_mul_pow2 (Z.pos mx) (ex - ez) ltac:(lia) ltac:(lia))
      as Hlog.
    pose proof (Z.log2_le_mono (Z.pos mx * 2 ^ (ex - ez)) (Z.pos pm)
                  ltac:(lia)). lia. }
  assert (Hlogz : Z.log2 (Z.pos mz)
                  = Z.log2 (Z.pos pm) + (ez - Z.min ez E)).
  { rewrite Hmz, Z.log2_mul_pow2 by lia. lia. }
  pose proof (binary_round_aux_pos mz (Z.min ez E) loc_Exact) as Hround.
  cbv zeta in Hround. rewrite Hlogz in Hround.
  replace (Z.log2 (Z.pos pm) + (ez - Z.min ez E) + 1 + Z.min ez E)
    with (Z.log2 (Z.pos pm) + 1 + ez) in Hround by lia.
  fold E in Hround.
  specialize (Hround ltac:(lia) ltac:(lia)).
  destruct Hround as [Hinf|(m & e & Hfin & Hb & He)]; [by left|].
  right. exists m, e. split; [done|]. split; [done|].
  destruct He as [[-> Hm]| ->]; [|lia].
  destruct (decide (ex < E)) as [|Hge]; [by left|right].
  assert (E = ex) as HEx by lia. split; [done|].
  rewrite HEx in Hm, Hmz.
  replace (Z.min ez ex) with ez in Hm, Hmz by lia.
  replace (ez - ez) with 0 in Hmz by lia.
  rewrite Z.mul_1_r in Hmz. rewrite Hmz in Hm.
  etrans; [|exact Hm].
  rewrite <-(Z.div_mul (Z.pos mx) (2 ^ (ex - ez))) at 1
    by (apply Z.pow_nonzero; lia).
  apply Z.div_le_mono; [apply Z.pow_pos_nonneg; lia|lia].
Qed.

(** Adding a number that is at least zero to another: the sum is at least
    zero and at least the first. *)
Lemma add_nonneg (x y : B64.t) :
  B64.nonneg x → B64.nonneg y →
  B64.nonneg (B64.add x y) ∧ B64.leb x (B64.add x y) = true.
Proof.
  intros Hx Hy.
  pose proof Hx as [[sx ->]|[->|(mx & ex & -> & Hbx)]]%nonneg_cases;
    pose proof Hy as [[sy ->]|[->|(my & ey & -> & Hby)]]%nonneg_cases.
  - by destruct sx, sy.
  - done.
  - split; [done|]. done.
  - done.
  - done.
  - done.
  - split; [done|]. by apply leb_refl.
  - done.
  - destruct (add_finite mx ex my ey Hbx Hby) as [Hinf|(m & e & Hfin & Hb & Hle)];
      cbv zeta in *.
    + rewrite Hinf. done.
    + rewrite Hfin. split.
      * apply nonneg_cases. right; right. by exists m, e.
      * by apply leb_finite.
Qed.

Lemma lit_300 : B64.lit 300 = S754_finite false 5277655813324800 (-44).
Proof. reflexivity. Qed.

Lemma lit_nonneg_0 : B64.nonneg (B64.lit 0).
Proof. done. Qed.

Lemma lit_nonneg_300 : B64.nonneg (B64.lit 300).
Proof. done. Qed.

(** The units bought at a positive price are at least zero. *)
Lemma div_contribution_pos (p : B64.t) :
  B64.pos p → B64.nonneg (B64.div (B64.lit 300) p).
Proof.
  intros [->|(my & ey & -> & [Hcy Hby]%bounded_b64)]%pos_cases; [done|].
  rewrite lit_300.
  unfold B64.div, B64.prec, B64.emax, SFdiv, SFdiv_core_binary. cbv zeta.
  change (Zdigits2 (Z.pos 5277655813324800)) with 53.
  change (Zdigits2 (Z.pos my)) with (Z.pos (digits2_pos my)).
  rewrite fexp_b64.
  pose proof (digits2_log2 my) as Hd.
  pose proof (Z.log2_nonneg (Z.pos my)) as Hl0.
  pose proof (Z.log2_spec (Z.pos my) ltac:(lia)) as [Hlo Hhi].
  set (d := digits2_pos my) in *.
  replace (Z.succ (Z.log2 (Z.pos my))) with (Z.pos d) in Hhi by lia.
  replace (Z.min (Z.max (53 + -44 - (Z.pos d + ey) - 53) (-1074)) (-44 - ey))
    with (-44 - Z.pos d - ey) by lia.
  replace (-44 - ey - (-44 - Z.pos d - ey)) with (Z.pos d) by lia.
  rewrite Z.shiftl_mul_pow2 by lia.
  set (M := Z.pos 5277655813324800 * 2 ^ Z.pos d).
  pose proof (Z_div_mod M (Z.pos my) eq_refl) as Hdiv.
  destruct (Z.div_eucl M (Z.pos my)) as [q r]. destruct Hdiv as [HM Hr].
  assert (Hq : 5277655813324800 ≤ q).
  { destruct (decide (5277655813324800 ≤ q)) as [|Hlt]; [done|exfalso].
    assert (Z.pos my * (q + 1) ≤ Z.pos my * 5277655813324800)
      by (apply Z.mul_le_mono_nonneg_l; lia).
    assert (Z.pos my * 5277655813324800 < 2 ^ Z.pos d * 5277655813324800)
      by (apply Z.mul_lt_mono_pos_r; lia).
    unfold M in HM. lia. }
  destruct q as [|q|q]; [lia| |lia].
  assert (Hlq : 52 ≤ Z.log2 (Z.pos q)).
  { change 52 with (Z.log2 5277655813324800). by apply Z.log2_le_mono. }
  pose proof (binary_round_aux_pos q (-44 - Z.pos d - ey)
                (new_location (Z.pos my) r)) as Hround.
  cbv zeta in Hround. rewrite fexp_b64 in Hround.
  specialize (Hround ltac:(lia) ltac:(lia)).
  destruct Hround as [Hinf|(m & e & Hfin & Hb & _)].
  - change (xorb false false) with false. rewrite Hinf. done.
  - change (xorb false false) with false. rewrite Hfin.
    apply nonneg_cases. right; right. by exists m, e.
Qed.

(** One step of the accumulators in binary64. *)
Lemma next_totals_invested (sched : list Timestamp) (a : B64.t * B64.t)
    (row : Row B64.t) :
  B64.nonneg a.2 →
  B64.nonneg (next_totals sched a row).2 ∧
  B64.leb a.2 (next_totals sched a row).2 = true.
Proof.
  intros Ha. unfold next_totals. case_bool_decide.
  - apply (add_nonneg a.2 (B64.lit 300)); [done|apply lit_nonneg_300].
  - split; [done|by apply leb_refl].
Qed.

Lemma next_totals_units (sched : list Timestamp) (a : B64.t * B64.t)
    (row : Row B64.t) :
  (Date row ∈ sched → B64.pos (adj_close row)) →
  B64.nonneg a.1 →
  B64.nonneg (next_totals sched a row).1 ∧
  B64.leb a.1 (next_totals sched a row).1 = true.
Proof.
  intros Hpos Ha. unfold next_totals. case_bool_decide.
  - apply (add_nonneg a.1 (B64.div (B64.lit 300) (adj_close row)));
      [done|]. by apply div_contribution_pos, Hpos.
  - split; [done|by apply leb_refl].
Qed.

(** The accumulators of a run stay at least zero: the invested amount
    always, the units when every purchase is at a positive price. *)
Lemma dca_totals_invested_nonneg (sched : list Timestamp)
    (a : B64.t * B64.t) (rows : DataFrame B64.t) :
  B64.nonneg a.2 →
  Forall (λ b, B64.nonneg b.2) (a :: dca_totals sched a rows).
Proof.
  revert a. induction rows as [|row rows IH]; intros a Ha; simpl.
  - constructor; [done|constructor].
  - constructor; [done|]. by apply IH, next_totals_invested.
Qed.

Lemma dca_totals_units_nonneg (sched : list Timestamp)
    (a : B64.t * B64.t) (rows : DataFrame B64.t) :
  (∀ r, r ∈ rows → Date r ∈ sched → B64.pos (adj_close r)) →
  B64.nonneg a.1 →
  Forall (λ b, B64.nonneg b.1) (a :: dca_totals sched a rows).
Proof.
  revert a. induction rows as [|row rows IH]; intros a Hpos Ha; simpl.
  - constructor; [done|constructor].
  - constructor; [done|]. apply IH.
    + intros r Hr. apply Hpos. by right.
    + apply next_totals_units; [|done]. apply Hpos. left.
Qed.

(** * The claims *)

Section Claims.
Context {F : Type} `{Float64 F}.
Implicit Types (prices : DataFrame F) (tk : string).

(** C1. The schedule returned by [_get_monthly_investment_dates] is
    sorted ascending (strictly) and has exactly one date per (year, month)
    pair of the input: its keys are pairwise distinct and are those
    present in the input. Each date follows the month rule: it is the
    minimum input date of its month with day of month at least
    [INVESTMENT_DAY] when there is one, the maximum input date of the month
    otherwise. The empty series yields the empty schedule, and the
    function raises no exception. *)
Theorem monthly_investment_dates_one_per_month prices :
  let sched := _get_monthly_investment_dates prices in
  StronglySorted ts_lt sched ∧
  NoDup (ym <$> sched) ∧
  (∀ k, k ∈ ym <$> sched ↔ k ∈ (λ r, ym (Date r)) <$> prices) ∧
  (∀ d, d ∈ sched → month_rule prices d) ∧
  _get_monthly_investment_dates (@nil (Row F)) = [].
Proof.
  simpl. split; [apply schedule_strictly_sorted|].
  split; [apply NoDup_ym_schedule|].
  split; [|split; [apply schedule_month_rule|done]].
  intros k. by rewrite ym_schedule_Permutation, elem_of_group_keys.
Qed.

(** C2, amended. [simulate_lump_sum] raises exactly when the series is
    empty, and the exception is the [KeyError] of the lookup of row 0;
    [simulate_dca] on the empty series raises nothing and returns the
    empty equity curve. *)
Theorem empty_series_outcomes prices tk :
  (raises (simulate_lump_sum prices tk) ↔ prices = []) ∧
  simulate_lump_sum (@nil (Row F)) tk = inl KeyError ∧
  simulate_dca (@nil (Row F)) tk
  = inr {| df_equity := []; name := "DCA"; ticker := tk |}.
Proof.
  split; [|done]. destruct prices as [|row rest].
  - split; [done|]. intros _. by exists KeyError.
  - rewrite simulate_lump_sum_cons. split; [|done]. by intros [e He].
Qed.

(** C3, amended. No price is rejected for its sign. [simulate_lump_sum]
    returns for every non-empty series, whatever the first price.
    [simulate_dca] raises exactly when the price of a row whose date is
    in the schedule is zero, and the exception is [ZeroDivisionError];
    a negative price is divided by like any other. *)
Theorem only_zero_schedule_price_raises prices tk :
  (prices ≠ [] → returns (simulate_lump_sum prices tk)) ∧
  (raises (simulate_dca prices tk) ↔
   ∃ row, row ∈ prices ∧ Date row ∈ _get_monthly_investment_dates prices
          ∧ f_is_zero (adj_close row) = true) ∧
  (∀ e, simulate_dca prices tk = inl e → e = ZeroDivisionError).
Proof.
  split; [|split].
  - destruct prices as [|row rest]; [done|]. intros _.
    rewrite simulate_lump_sum_cons. by eexists.
  - split.
    + intros [e He]. by apply simulate_dca_inl in He as [_ ?].
    + intros (row & Hrow & Hin & Hz).
      destruct (simulate_dca prices tk) as [e|res] eqn:Hsim; [by exists e|].
      apply simulate_dca_inr in Hsim as [Hnz _].
      rewrite (Hnz row Hrow Hin) in Hz. done.
  - intros e He. by apply simulate_dca_inl in He as [? _].
Qed.

(** C4. In the equity curve of either strategy, every record stands for
    the input row at its position, and its [portfolio_value] is its
    [units] times the price of that row. *)
Theorem portfolio_value_is_units_times_price prices tk res :
  simulate_lump_sum prices tk = inr res ∨ simulate_dca prices tk = inr res →
  Forall2 (λ row e, eq_Date e = Date row ∧
                    portfolio_value e = f_mul (units e) (adj_close row))
    prices (df_equity res).
Proof.
  intros [Hsim|Hsim]; [|by apply simulate_dca_rows in Hsim].
  destruct prices as [|row0 rest]; [done|].
  rewrite simulate_lump_sum_cons in Hsim. injection Hsim as <-. simpl.
  constructor; [done|].
  apply Forall2_fmap_r, Forall_Forall2_diag, Forall_forall. done.
Qed.

(** C5, amended. In binary64, with [<=] of IEEE 754, from one state of
    the accumulators of a run that returns to the next (the initial
    state, then the state of every emitted record): [invested_amount]
    does not decrease, for all inputs; [units] does not decrease when the
    prices of the rows on schedule dates are positive numbers; and on a
    row whose date is not in the schedule both are unchanged. *)
Theorem dca_accumulators_monotone (prices : DataFrame B64.t) tk
    (res : StrategyResult B64.t) (i : nat) (a b : B64.t * B64.t)
    (row : Row B64.t) :
  simulate_dca prices tk = inr res →
  accumulators res !! i = Some a →
  accumulators res !! S i = Some b →
  prices !! i = Some row →
  B64.leb a.2 b.2 = true ∧
  ((∀ r, r ∈ prices → Date r ∈ _get_monthly_investment_dates prices
         → B64.pos (adj_close r)) → B64.leb a.1 b.1 = true) ∧
  (Date row ∉ _get_monthly_investment_dates prices → b = a).
Proof.
  intros Hsim Ha Hb Hrow.
  rewrite (accumulators_step _ _ _ _ _ _ Hsim Ha Hrow) in Hb.
  injection Hb as <-.
  rewrite (accumulators_simulate_dca _ _ _ Hsim) in Ha.
  set (sched := _get_monthly_investment_dates prices) in *.
  split; [|split].
  - apply next_totals_invested.
    pose proof (dca_totals_invested_nonneg sched (B64.lit 0, B64.lit 0)
                  prices lit_nonneg_0) as Hall.
    exact (proj1 (Forall_lookup _ _) Hall i a Ha).
  - intros Hpos. apply next_totals_units.
    + apply Hpos. by eapply list_elem_of_lookup_2.
    + pose proof (dca_totals_units_nonneg sched (B64.lit 0, B64.lit 0)
                    prices Hpos lit_nonneg_0) as Hall.
      exact (proj1 (Forall_lookup _ _) Hall i a Ha).
  - intros Hout. unfold next_totals. by rewrite bool_decide_false.
Qed.

(** C6, amended. For a non-empty series with pairwise distinct dates on
    which [simulate_dca] returns, the [invested_amount] of the last record
    is the monthly contribution added once per distinct calendar month
    with data; where multiples of the contribution accumulate without
    rounding, that is the contribution times the number of months. *)
Theorem dca_final_invested_unique_dates prices tk res :
  NoDup (Date <$> prices) →
  simulate_dca prices tk = inr res →
  prices ≠ [] →
  ∃ e, last (df_equity res) = Some e ∧
       invested_amount e
       = Nat.iter (months_with_data prices)
           (λ x, f_add x MONTHLY_CONTRIBUTION) (f_lit 0) ∧
       (ExactContribution F →
        invested_amount e
        = f_mul MONTHLY_CONTRIBUTION
            (f_lit (Z.of_nat (months_with_data prices)))).
Proof.
  intros Hnd Hsim Hne.
  pose proof (accumulators_simulate_dca _ _ _ Hsim) as Hacc.
  unfold accumulators in Hacc. injection Hacc as Hacc.
  destruct (last (df_equity res)) as [e|] eqn:Hlast.
  2:{ apply last_None in Hlast. rewrite Hlast in Hacc.
      apply (f_equal length) in Hacc. rewrite length_dca_totals in Hacc.
      by destruct prices. }
  exists e. split; [done|].
  pose proof (last_dca_totals (_get_monthly_investment_dates prices)
                (f_lit 0, f_lit 0) prices) as Hl.
  rewrite <-Hacc, fmap_last, Hlast in Hl. simpl in Hl. rewrite Hl.
  fold (purchase_rows prices). rewrite length_purchase_rows by done.
  split; [done|]. intros Hexact. apply iter_contribution.
Qed.

(** C7. On a non-empty series [simulate_lump_sum] returns one record per
    input row, in order; in every record [units] is the initial capital
    divided by the price of the first row, and [invested_amount] is the
    initial capital. *)
Theorem lump_sum_constant_units_and_invested (row0 : Row F) rest tk :
  ∃ res, simulate_lump_sum (row0 :: rest) tk = inr res ∧
    eq_Date <$> df_equity res = Date <$> row0 :: rest ∧
    Forall (λ e, units e = f_div INITIAL_CAPITAL (adj_close row0) ∧
                 invested_amount e = INITIAL_CAPITAL) (df_equity res).
Proof.
  eexists. split; [apply simulate_lump_sum_cons|]. simpl. split.
  - f_equal. by rewrite <-list_fmap_compose.
  - constructor; [done|]. apply Forall_fmap, Forall_forall. done.
Qed.

(** C8, amended. [run_simulations] does not isolate failures: when the
    simulation of one of the instruments raises, the whole call raises
    the exception of the first instrument of the list whose simulation
    fails ([KeyError] when its series is empty, [ZeroDivisionError]
    otherwise), which does not name the instrument, and no curve is
    returned, for any instrument. When no simulation raises, and there is
    at least one instrument, the result is the lump-sum curve followed by
    the DCA curve of every instrument, in the order of the list. *)
Theorem run_simulations_first_failure_aborts (tickers : list string)
    (conn : Connection F) :
  ((∃ tk, tk ∈ tickers ∧ simulation_fails conn tk) →
   ∃ pre tk1 post, tickers = pre ++ tk1 :: post ∧
     (∀ t, t ∈ pre → ¬ simulation_fails conn t) ∧
     simulation_fails conn tk1 ∧
     run_simulations tickers conn = inl (exception_of conn tk1) ∧
     (exception_of conn tk1 = KeyError ↔ get_price_series tk1 conn = []) ∧
     (exception_of conn tk1 = ZeroDivisionError
      ↔ get_price_series tk1 conn ≠ [])) ∧
  ((∀ tk, tk ∈ tickers → ¬ simulation_fails conn tk) → tickers ≠ [] →
   run_simulations tickers conn
   = inr (tickers ≫= λ tk,
       curve (simulate_lump_sum (get_price_series tk conn) tk)
       ++ curve (simulate_dca (get_price_series tk conn) tk))).
Proof.
  split.
  - intros (tk & Htk & Hfail).
    destruct (run_loop_raises tickers conn [] tk Htk Hfail) as [e He].
    assert (run_simulations tickers conn = inl e) as Hrun
      by (unfold run_simulations; by rewrite He).
    pose proof Hrun as Hcase. apply run_simulations_inl in Hcase.
    destruct Hcase as [[-> _]|(pre & tk1 & post & Heq & Hpre & Hf & ->)].
    { by apply elem_of_nil in Htk. }
    exists pre, tk1, post. do 4 (split; [done|]).
    unfold exception_of. by destruct (get_price_series tk1 conn).
  - unfold run_simulations. intros Hok Hne. rewrite run_loop_returns by done.
    rewrite app_nil_l. unfold mbind at 1, exn_bind.
    rewrite <-concat_bind_pair.
    destruct tickers as [|tk rest]; [done|]. done.
Qed.

(** C9, amended. The order of the dates is not checked. On every
    non-empty series without a zero price on a schedule date, whatever
    the order of its dates, both simulations return and emit one record
    per input row, in the order of the input. *)
Theorem simulations_ignore_date_order prices tk :
  prices ≠ [] →
  no_zero_divisor (_get_monthly_investment_dates prices) prices →
  ∃ lump dca,
    simulate_lump_sum prices tk = inr lump ∧
    simulate_dca prices tk = inr dca ∧
    eq_Date <$> df_equity lump = Date <$> prices ∧
    eq_Date <$> df_equity dca = Date <$> prices.
Proof.
  intros Hne Hnz.
  destruct (simulate_dca_returns prices tk Hnz) as [dca Hdca].
  destruct prices as [|row0 rest]; [done|].
  eexists _, dca. split; [apply simulate_lump_sum_cons|].
  split; [done|]. split.
  - simpl. f_equal. by rewrite <-list_fmap_compose.
  - eapply Forall2_dates, simulate_dca_rows, Hdca.
Qed.

End Claims.

(** ** Instances of the claims on concrete series *)

(** The run on [ex_two_months]: the purchases fall on January 20, the
    first date of the month on or after the 5th, and on February 5. *)
Example two_months_run :
  _get_monthly_investment_dates ex_two_months
  = [mkTimestamp 2020 1 20; mkTimestamp 2020 2 5] ∧
  invested_amount <$> df_equity ex_two_months_dca = [0; 300; 600; 600]%Q ∧
  units <$> df_equity ex_two_months_dca
  = [0; 300 # 12; 6900 # 132; 6900 # 132]%Q.
Proof. by vm_compute. Qed.

Lemma portfolio_value_is_units_times_price_witness :
  simulate_dca ex_two_months "AAPL" = inr ex_two_months_dca ∧
  Forall2 (λ row e, eq_Date e = Date row ∧
                    portfolio_value e = f_mul (units e) (adj_close row))
    ex_two_months (df_equity ex_two_months_dca).
Proof.
  assert (Hrun : simulate_dca ex_two_months "AAPL" = inr ex_two_months_dca)
    by (vm_compute; reflexivity).
  split; [exact Hrun|].
  exact (portfolio_value_is_units_times_price ex_two_months "AAPL"
           ex_two_months_dca (or_intror Hrun)).
Defined.

Lemma dca_accumulators_monotone_witness :
  let a := (B64.lit 25, B64.lit 300) in
  let b := (B64.add (B64.lit 25) (B64.div (B64.lit 300) (B64.lit 11)),
            B64.lit 600) in
  let row := b64_row 2020 2 5 11 in
  simulate_dca ex_two_months_b64 "AAPL" = inr ex_two_months_b64_dca ∧
  accumulators ex_two_months_b64_dca !! 2%nat = Some a ∧
  accumulators ex_two_months_b64_dca !! 3%nat = Some b ∧
  ex_two_months_b64 !! 2%nat = Some row ∧
  (∀ r, r ∈ ex_two_months_b64
        → Date r ∈ _get_monthly_investment_dates ex_two_months_b64
        → B64.pos (adj_close r)) ∧
  B64.leb a.2 b.2 = true ∧ B64.leb a.1 b.1 = true.
Proof.
  intros a b row.
  assert (Hrun : simulate_dca ex_two_months_b64 "AAPL"
                 = inr ex_two_months_b64_dca) by (vm_compute; reflexivity).
  assert (Ha : accumulators ex_two_months_b64_dca !! 2%nat = Some a)
    by (vm_compute; reflexivity).
  assert (Hb : accumulators ex_two_months_b64_dca !! 3%nat = Some b)
    by (vm_compute; reflexivity).
  assert (Hrow : ex_two_months_b64 !! 2%nat = Some row) by reflexivity.
  assert (Hpos : ∀ r, r ∈ ex_two_months_b64
            → Date r ∈ _get_monthly_investment_dates ex_two_months_b64
            → B64.pos (adj_close r)).
  { intros r Hr _. unfold ex_two_months_b64 in Hr.
    rewrite !elem_of_cons, elem_of_nil in Hr.
    destruct Hr as [->|[->|[->|[->|[]]]]]; split; reflexivity. }
  do 5 (split; [assumption|]).
  destruct (dca_accumulators_monotone ex_two_months_b64 "AAPL"
              ex_two_months_b64_dca 2 a b row Hrun Ha Hb Hrow)
    as (Hinv & Hunits & _).
  split; [exact Hinv|exact (Hunits Hpos)].
Defined.

Lemma dca_final_invested_unique_dates_witness :
  NoDup (Date <$> ex_two_months) ∧
  simulate_dca ex_two_months "AAPL" = inr ex_two_months_dca ∧
  ex_two_months ≠ [] ∧
  ∃ e, last (df_equity ex_two_months_dca) = Some e ∧
       invested_amount e
       = f_mul MONTHLY_CONTRIBUTION
           (f_lit (Z.of_nat (months_with_data ex_two_months))).
Proof.
  assert (Hnd : NoDup (Date <$> ex_two_months))
    by (apply (bool_decide_unpack _); vm_compute; exact I).
  assert (Hrun : simulate_dca ex_two_months "AAPL" = inr ex_two_months_dca)
    by (vm_compute; reflexivity).
  assert (Hne : ex_two_months ≠ []) by discriminate.
  do 3 (split; [assumption|]).
  destruct (dca_final_invested_unique_dates ex_two_months "AAPL"
              ex_two_months_dca Hnd Hrun Hne) as (e & Hlast & _ & Hprod).
  exists e. split; [exact Hlast|]. exact (Hprod exactQ_contribution).
Defined.

Lemma simulations_ignore_date_order_witness :
  ¬ StronglySorted ts_lt (Date <$> ex_unordered) ∧
  ex_unordered ≠ [] ∧
  no_zero_divisor (_get_monthly_investment_dates ex_unordered) ex_unordered ∧
  ∃ lump dca,
    simulate_lump_sum ex_unordered "AAPL" = inr lump ∧
    simulate_dca ex_unordered "AAPL" = inr dca ∧
    eq_Date <$> df_equity lump = Date <$> ex_unordered ∧
    eq_Date <$> df_equity dca = Date <$> ex_unordered.
Proof.
  assert (Hne : ex_unordered ≠ []) by discriminate.
  assert (Hnz : no_zero_divisor (_get_monthly_investment_dates ex_unordered)
                  ex_unordered).
  { intros row Hrow _.
    apply elem_of_cons in Hrow as [->|Hrow]; [reflexivity|].
    apply elem_of_cons in Hrow as [->|Hrow]; [reflexivity|].
    by apply elem_of_nil in Hrow. }
  split.
  { intros Hs. inversion Hs as [|? ? _ Hall]; subst.
    inversion Hall as [|? ? Hlt _]; subst.
    unfold ts_lt in Hlt. simpl in Hlt. lia. }
  do 2 (split; [assumption|]).
  exact (simulations_ignore_date_order ex_unordered "AAPL" Hne Hnz).
Defined.


(** The month of the repeated date receives two contributions. *)
Example duplicate_date_buys_twice :
  _get_monthly_investment_dates ex_duplicate_dates = [mkTimestamp 2020 1 6] ∧
  months_with_data ex_duplicate_dates = 1%nat ∧
  length (purchase_rows ex_duplicate_dates) = 2%nat ∧
  invested_amount <$> df_equity ex_duplicate_dates_dca
  = [B64.lit 300; B64.lit 600].
Proof. vm_compute. done. Qed.

(** A zero price: the lump sum holds infinitely many units, worth NaN on
    the first day; the monthly purchase raises. *)
Example zero_price_outcomes :
  (∃ res, simulate_lump_sum [b64_row 2020 1 6 0] "AAPL" = inr res ∧
          units <$> df_equity res = [B64.inf] ∧
          portfolio_value <$> df_equity res = [B64.nan]) ∧
  simulate_dca [b64_row 2020 1 6 0] "AAPL" = inl ZeroDivisionError.
Proof. split; [eexists; split; [reflexivity|]|]; by vm_compute. Qed.

(** The exception of a failed call is that of the first instrument that
    fails, not of any: MSFT alone fails on its zero price, and after AAPL,
    which has no rows, the call fails on AAPL. *)
Example first_failure_decides_exception :
  run_simulations ["MSFT"] ex_conn_msft_zero = inl ZeroDivisionError ∧
  run_simulations ["AAPL"; "MSFT"] ex_conn_msft_zero = inl KeyError ∧
  run_simulations ["MSFT"; "AAPL"] ex_conn_msft_zero = inl ZeroDivisionError.
Proof. repeat split; by vm_compute. Qed.

(** Rows of equal date come in the order of the table. *)
Example same_day_rows_keep_table_order :
  adj_close <$> get_price_series "AAPL" ex_conn_same_day_twice
  = [B64.lit 10; B64.lit 11].
Proof. by vm_compute. Qed.

(** ** Inputs on which the claims of the specification fail *)

Lemma simulate_dca_empty_series_returns :
  ¬ raises (simulate_dca (@nil (Row B64.t)) "AAPL") ∧
  simulate_dca (@nil (Row B64.t)) "AAPL"
  = inr {| df_equity := []; name := "DCA"; ticker := "AAPL" |}.
Proof. split; [|reflexivity]. by intros [e He]. Qed.

Lemma negative_price_is_not_rejected :
  B64.ltb (B64.lit (-20)) (B64.lit 0) = true ∧
  mkTimestamp 2020 2 5 ∈ _get_monthly_investment_dates ex_negative_price ∧
  simulate_dca ex_negative_price "AAPL" = inr ex_negative_price_dca ∧
  units <$> df_equity ex_negative_price_dca = [B64.lit 30; B64.lit 15] ∧
  returns (simulate_lump_sum [b64_row 2020 2 5 (-20)] "AAPL").
Proof.
  split; [by vm_compute|].
  split; [by apply (bool_decide_unpack _); vm_compute|].
  split; [by vm_compute|]. split; [by vm_compute|]. by eexists.
Qed.

Lemma dca_units_decrease_on_negative_price :
  ∃ e1 e2,
    simulate_dca ex_negative_price "AAPL" = inr ex_negative_price_dca ∧
    df_equity ex_negative_price_dca !! 0%nat = Some e1 ∧
    df_equity ex_negative_price_dca !! 1%nat = Some e2 ∧
    B64.ltb (units e2) (units e1) = true ∧
    B64.leb (units e1) (units e2) = false.
Proof.
  eexists _, _. split; [by vm_compute|].
  split; [reflexivity|]. split; [reflexivity|]. split; by vm_compute.
Qed.

Lemma dca_final_invested_duplicate_dates :
  simulate_dca ex_duplicate_dates "AAPL" = inr ex_duplicate_dates_dca ∧
  months_with_data ex_duplicate_dates = 1%nat ∧
  ∃ e, last (df_equity ex_duplicate_dates_dca) = Some e ∧
       invested_amount e = B64.lit 600 ∧
       invested_amount e
       ≠ f_mul MONTHLY_CONTRIBUTION
           (f_lit (Z.of_nat (months_with_data ex_duplicate_dates))).
Proof.
  split; [by vm_compute|]. split; [by vm_compute|].
  eexists. split; [reflexivity|]. split; [by vm_compute|].
  vm_compute. discriminate.
Qed.

Lemma run_simulations_failure_not_isolated :
  ¬ simulation_fails ex_conn_msft_only "MSFT" ∧
  returns (run_simulations ["MSFT"] ex_conn_msft_only) ∧
  run_simulations ["AAPL"; "MSFT"] ex_conn_msft_only = inl KeyError.
Proof.
  split; [|split; [by eexists; vm_compute|by vm_compute]].
  intros [[e He]|[e He]]; vm_compute in He; discriminate.
Qed.


Lemma unordered_dates_are_simulated :
  ¬ StronglySorted ts_lt (Date <$> ex_unordered) ∧
  (∃ lump, simulate_lump_sum ex_unordered "AAPL" = inr lump ∧
           eq_Date <$> df_equity lump
           = [mkTimestamp 2020 2 5; mkTimestamp 2020 1 6]) ∧
  (∃ dca, simulate_dca ex_unordered "AAPL" = inr dca ∧
          eq_Date <$> df_equity dca
          = [mkTimestamp 2020 2 5; mkTimestamp 2020 1 6]) ∧
  Date <$> get_price_series "AAPL" ex_conn_same_day_twice
  = [mkTimestamp 2020 1 6; mkTimestamp 2020 1 6] ∧
  (∃ all, run_simulations ["AAPL"] ex_conn_same_day_twice = inr all ∧
          length all = 4%nat).
Proof.
  split.
  { intros Hs. inversion Hs as [|? ? _ Hall]; subst.
    inversion Hall as [|? ? Hlt _]; subst.
    unfold ts_lt in Hlt. simpl in Hlt. lia. }
  split; [eexists; split; by vm_compute|].
  split; [eexists; split; by vm_compute|].
  split; [by vm_compute|].
  eexists; split; by vm_compute.
Qed.

(** * Further properties of the code *)

(** ** The schedule *)

#[global] Instance ts_le_antisym : AntiSymm (=) ts_le.
Proof.
  intros [y1 m1 d1] [y2 m2 d2] ? ?. f_equal; order_tac.
Qed.

Lemma ts_lt_le a b : ts_lt a b → ts_le a b.
Proof. destruct a, b. order_tac. Qed.

Lemma ts_le_ne_lt a b : ts_le a b → a ≠ b → ts_lt a b.
Proof.
  destruct a as [y1 m1 d1], b as [y2 m2 d2]. intros Hle Hne.
  assert (y1 ≠ y2 ∨ m1 ≠ m2 ∨ d1 ≠ d2).
  { destruct (decide (y1 = y2)) as [->|]; [|by left].
    destruct (decide (m1 = m2)) as [->|]; [|by right; left].
    right; right. by intros ->. }
  order_tac.
Qed.

Lemma ts_le_same_month a b : ym a = ym b → day a ≤ day b → ts_le a b.
Proof. destruct a, b. intros [= -> ->] ?. order_tac. Qed.

Lemma StronglySorted_impl {A} (R1 R2 : relation A) (l : list A) :
  (∀ x y, x ∈ l → y ∈ l → R1 x y → R2 x y) →
  StronglySorted R1 l → StronglySorted R2 l.
Proof.
  intros Himpl Hs. induction Hs as [|x l Hs IH Hall]; [constructor|].
  constructor.
  - apply IH. intros y z Hy Hz. apply Himpl; by right.
  - apply Forall_forall. intros y Hy. apply Himpl; [left|by right|].
    by apply (proj1 (Forall_forall _ _) Hall).
Qed.

Lemma StronglySorted_filter {A} (R : relation A) (P : A → Prop)
    `{∀ x, Decision (P x)} (l : list A) :
  StronglySorted R l → StronglySorted R (filter P l).
Proof.
  induction 1 as [|x l Hs IH Hall]; [constructor|].
  destruct (decide (P x)) as [HP|HP].
  - rewrite filter_cons_True by done. constructor; [done|].
    apply Forall_forall. intros y [_ Hy]%list_elem_of_filter.
    by apply (proj1 (Forall_forall _ _) Hall).
  - by rewrite filter_cons_False by done.
Qed.

Lemma StronglySorted_ts_lt_NoDup (l : list Timestamp) :
  StronglySorted ts_lt l → NoDup l.
Proof.
  induction 1 as [|x l Hs IH Hall]; constructor; [|done].
  intros Hx. apply (proj1 (Forall_forall _ _) Hall) in Hx.
  destruct x. order_tac.
Qed.

Lemma length_remove_dups `{EqDecision A} (l : list A) :
  (length (remove_dups l) ≤ length l)%nat.
Proof.
  induction l as [|x l IH]; simpl; [done|].
  destruct (decide_rel elem_of x l); simpl; lia.
Qed.

Section MoreSelection.
Context {F : Type} `{Float64 F}.
Implicit Types (prices : DataFrame F) (d : Timestamp).

Lemma is_minimum_unique d d' (l : list Timestamp) :
  is_minimum d l → is_minimum d' l → d = d'.
Proof. intros [Hd Hmin] [Hd' Hmin']. apply (anti_symm ts_le); auto. Qed.

Lemma is_maximum_unique d d' (l : list Timestamp) :
  is_maximum d l → is_maximum d' l → d = d'.
Proof. intros [Hd Hmax] [Hd' Hmax']. apply (anti_symm ts_le); auto. Qed.

Lemma month_rule_unique prices d d' :
  ym d = ym d' → month_rule prices d → month_rule prices d' → d = d'.
Proof.
  unfold month_rule. intros <-. simpl. intros [Hmin Hmax] [Hmin' Hmax'].
  destruct (decide (on_or_after_target (month_dates prices (ym d)) = []))
    as [Ho|Ho].
  - eapply is_maximum_unique; eauto.
  - eapply is_minimum_unique; eauto.
Qed.

(** The rule of a month reads the dates of that month only, and only
    through membership. *)
Lemma month_rule_ext (p1 p2 : DataFrame F) d :
  (∀ x, ym x = ym d → (x ∈ Date <$> p1 ↔ x ∈ Date <$> p2)) →
  month_rule p1 d → month_rule p2 d.
Proof.
  intros Hsame.
  assert (Hm : ∀ x, x ∈ month_dates p1 (ym d)
                    ↔ x ∈ month_dates p2 (ym d)).
  { intros x. unfold month_dates. rewrite !list_elem_of_filter.
    split; intros [Hx ?]; (split; [done|]); by apply (Hsame x Hx). }
  assert (He : ∀ x, x ∈ on_or_after_target (month_dates p1 (ym d))
                    ↔ x ∈ on_or_after_target (month_dates p2 (ym d))).
  { intros x. unfold on_or_after_target. rewrite !list_elem_of_filter.
    by rewrite Hm. }
  unfold month_rule. simpl. intros [Hmin Hmax]. split.
  - intros Hne. destruct Hmin as [Hin Hle].
    { intros Hnil. apply Hne, elem_of_nil_inv. intros x Hx%He.
      rewrite Hnil in Hx. by apply elem_of_nil in Hx. }
    split; [by apply He|]. intros x Hx. by apply Hle, He.
  - intros Hnil. destruct Hmax as [Hin Hle].
    { apply elem_of_nil_inv. intros x Hx%He.
      rewrite Hnil in Hx. by apply elem_of_nil in Hx. }
    split; [by apply Hm|]. intros x Hx. by apply Hle, Hm.
Qed.

Lemma elem_of_schedule prices d :
  d ∈ _get_monthly_investment_dates prices
  ↔ d ∈ Date <$> prices ∧ month_rule prices d.
Proof.
  split.
  - intros Hd. split; [by apply schedule_subset|by apply schedule_month_rule].
  - intros [Hd Hrule].
    assert (ym d ∈ ym <$> _get_monthly_investment_dates prices) as Hk.
    { rewrite ym_schedule_Permutation, elem_of_group_keys.
      apply list_elem_of_fmap in Hd as (r & -> & Hr).
      apply list_elem_of_fmap. by exists r. }
    apply list_elem_of_fmap in Hk as (d' & Hym & Hd').
    rewrite (month_rule_unique prices d d' Hym Hrule); [done|].
    by apply schedule_month_rule.
Qed.

Lemma elem_of_schedule_ext (p1 p2 : DataFrame F) d :
  (∀ x, ym x = ym d → (x ∈ Date <$> p1 ↔ x ∈ Date <$> p2)) →
  d ∈ _get_monthly_investment_dates p1 →
  d ∈ _get_monthly_investment_dates p2.
Proof.
  intros Hsame [Hd Hrule]%elem_of_schedule. apply elem_of_schedule.
  split; [by apply Hsame|by apply (month_rule_ext p1)].
Qed.

(** X1. A date is in the schedule exactly when it is a date of the input
    that satisfies the rule of its month: the schedule holds no other
    date, and every input date that is the minimum on or after the target
    day, or the maximum of a month that never reaches it, is selected. *)
Theorem schedule_characterisation prices d :
  d ∈ _get_monthly_investment_dates prices
  ↔ d ∈ Date <$> prices ∧ month_rule prices d.
Proof. apply elem_of_schedule. Qed.

(** X2. The investment date of a month depends on the dates of that month
    only: two frames with the same dates in the month of [d] agree on
    whether [d] is selected, whatever their other months hold. *)
Theorem schedule_of_month_is_local (p1 p2 : DataFrame F) d :
  (∀ x, ym x = ym d → (x ∈ Date <$> p1 ↔ x ∈ Date <$> p2)) →
  (d ∈ _get_monthly_investment_dates p1
   ↔ d ∈ _get_monthly_investment_dates p2).
Proof.
  intros Hsame. split; apply elem_of_schedule_ext; [done|].
  intros x Hx. symmetry. by apply Hsame.
Qed.

(** X3. The schedule is a function of the set of input dates: frames with
    the same dates have the same schedule, whatever their prices, the
    order of their rows and the number of times a date occurs. *)
Theorem schedule_depends_on_dates_only (p1 p2 : DataFrame F) :
  (∀ x, x ∈ Date <$> p1 ↔ x ∈ Date <$> p2) →
  _get_monthly_investment_dates p1 = _get_monthly_investment_dates p2.
Proof.
  intros Hsame. apply (StronglySorted_unique ts_le); [apply schedule_sorted..|].
  apply NoDup_Permutation; [apply NoDup_schedule..|].
  intros d. split; apply elem_of_schedule_ext; intros x _; [done|].
  symmetry. apply Hsame.
Qed.

(** X4. The schedule has as many dates as the input has distinct calendar
    months, which is at most the number of rows, and each of them is a
    date of the input. *)
Theorem schedule_cardinality prices :
  length (_get_monthly_investment_dates prices) = months_with_data prices ∧
  (months_with_data prices ≤ length prices)%nat ∧
  ∀ d, d ∈ _get_monthly_investment_dates prices → d ∈ Date <$> prices.
Proof.
  split; [apply length_schedule|]. split; [|apply schedule_subset].
  unfold months_with_data.
  rewrite <-(length_fmap (λ r, ym (Date r)) prices).
  apply length_remove_dups.
Qed.

(** X5. When a month has a row on the target day itself, that day is the
    investment date of the month. *)
Theorem target_day_is_selected prices (r : Row F) :
  r ∈ prices →
  day (Date r) = INVESTMENT_DAY →
  Date r ∈ _get_monthly_investment_dates prices.
Proof.
  intros Hr Hday. apply elem_of_schedule.
  assert (Date r ∈ Date <$> prices) as Hd by (by apply list_elem_of_fmap_2).
  split; [done|].
  assert (Date r ∈ on_or_after_target (month_dates prices (ym (Date r))))
    as He.
  { unfold on_or_after_target, month_dates.
    rewrite !list_elem_of_filter. split; [lia|done]. }
  unfold month_rule. simpl. split.
  - intros _. split; [done|]. intros x Hx.
    unfold on_or_after_target, month_dates in Hx.
    apply list_elem_of_filter in Hx as [Hx1 Hx2].
    apply list_elem_of_filter in Hx2 as [Hx2 _].
    apply ts_le_same_month; [done|lia].
  - intros Hnil. rewrite Hnil in He. by apply elem_of_nil in He.
Qed.
End MoreSelection.

(** ** The monthly purchases *)

Section MoreDca.
Context {F : Type} `{Float64 F}.
Implicit Types (prices rows : DataFrame F) (sched : list Timestamp)
  (a : F * F).

Lemma dca_totals_prefix sched a0 rows (n : nat) :
  (n ≤ length rows)%nat →
  (a0 :: dca_totals sched a0 rows) !! n
  = Some (foldl buy a0 (filter (λ r, Date r ∈ sched) (take n rows))).
Proof.
  revert a0 n. induction rows as [|row rows IH]; intros a0 [|n] Hn;
    simpl in Hn; try done; try lia.
  simpl. rewrite (IH _ n) by lia. f_equal. unfold next_totals.
  destruct (decide (Date row ∈ sched)) as [Hin|Hin].
  - by rewrite bool_decide_true, filter_cons_True by done.
  - by rewrite bool_decide_false, filter_cons_False by done.
Qed.

Lemma fmap_Date_filter sched rows :
  Date <$> filter (λ r, Date r ∈ sched) rows
  = filter (λ d, d ∈ sched) (Date <$> rows).
Proof.
  induction rows as [|row rows IH]; [done|]. csimpl.
  destruct (decide (Date row ∈ sched)) as [Hin|Hin].
  - rewrite (filter_cons_True (λ d, d ∈ sched)) by done.
    rewrite (filter_cons_True (λ r : Row F, Date r ∈ sched)) by done.
    csimpl. f_equal. apply IH.
  - rewrite (filter_cons_False (λ d, d ∈ sched)) by done.
    rewrite (filter_cons_False (λ r : Row F, Date r ∈ sched)) by done.
    apply IH.
Qed.

(** X6. After any number [n] of rows, the two accumulators of
    [simulate_dca] are what the purchases on the rows so far whose date is
    in the schedule make of the initial zeros, one purchase per such row,
    in order; the other rows have no effect on the holdings. *)
Theorem dca_state_after_rows prices tk res (n : nat) :
  simulate_dca prices tk = inr res →
  (n ≤ length prices)%nat →
  accumulators res !! n
  = Some (foldl buy (f_lit 0, f_lit 0)
            (filter (λ r, Date r ∈ _get_monthly_investment_dates prices)
               (take n prices))).
Proof.
  intros Hsim Hn. rewrite (accumulators_simulate_dca _ _ _ Hsim).
  by apply dca_totals_prefix.
Qed.

(** X7. On a series with strictly increasing dates [simulate_dca] buys
    once per calendar month with data, on the date selected for it: after
    any number [n] of rows its accumulators are what one purchase on each
    row of a sub-list of these [n] rows makes of the initial zeros, and
    the dates of that sub-list are, in order, the dates of the schedule
    reached so far. *)
Theorem purchases_follow_schedule prices tk res (n : nat) :
  StronglySorted ts_lt (Date <$> prices) →
  simulate_dca prices tk = inr res →
  (n ≤ length prices)%nat →
  ∃ rows,
    rows `sublist_of` take n prices ∧
    Date <$> rows
    = filter (λ d, d ∈ Date <$> take n prices)
        (_get_monthly_investment_dates prices) ∧
    accumulators res !! n = Some (foldl buy (f_lit 0, f_lit 0) rows).
Proof.
  intros Hs Hsim Hn.
  set (sched := _get_monthly_investment_dates prices).
  exists (filter (λ r, Date r ∈ sched) (take n prices)).
  split; [apply sublist_filter|]. split.
  - assert (StronglySorted ts_lt (Date <$> take n prices)) as Hs'.
    { rewrite <-(take_drop n prices), fmap_app in Hs.
      by apply StronglySorted_app_1_l in Hs. }
    rewrite fmap_Date_filter. apply (StronglySorted_unique ts_le).
    + apply StronglySorted_filter.
      eapply StronglySorted_impl; [|exact Hs']. intros x y _ _. apply ts_lt_le.
    + apply StronglySorted_filter, schedule_sorted.
    + apply NoDup_Permutation.
      * by apply NoDup_filter, StronglySorted_ts_lt_NoDup.
      * apply NoDup_filter, NoDup_schedule.
      * intros d. rewrite !list_elem_of_filter. tauto.
  - rewrite (accumulators_simulate_dca _ _ _ Hsim).
    by apply dca_totals_prefix.
Qed.
End MoreDca.

(** X8. In binary64, when the first price is a zero, [simulate_lump_sum]
    raises nothing: every record holds an infinite number of units, of the
    sign of that zero. *)
Theorem lump_sum_zero_first_price (s : bool) (d : Timestamp)
    (rest : DataFrame B64.t) (tk : string) :
  ∃ res, simulate_lump_sum (mkRow d (S754_zero s) :: rest) tk = inr res ∧
    length (df_equity res) = S (length rest) ∧
    Forall (λ e, units e = S754_infinity s) (df_equity res).
Proof.
  eexists. split; [apply simulate_lump_sum_cons|]. cbn [df_equity]. split.
  - by rewrite length_fmap.
  - apply Forall_fmap, Forall_forall. intros r _. by destruct s.
Qed.

(** ** get_price_series *)

Section MoreSeries.
Context {F : Type} `{Float64 F}.
Implicit Types (conn : Connection F) (tk : string).

Lemma insert_by_Date_Permutation (r : Row F) (l : DataFrame F) :
  insert_by_Date r l ≡ₚ r :: l.
Proof.
  induction l as [|x l IH]; simpl; [done|].
  destruct (decide (ts_le (Date r) (Date x))); [done|].
  by rewrite IH, Permutation_swap.
Qed.

Lemma order_by_Date_Permutation (df : DataFrame F) : order_by_Date df ≡ₚ df.
Proof.
  induction df as [|r df IH]; simpl; [done|].
  by rewrite insert_by_Date_Permutation, IH.
Qed.

Lemma insert_by_Date_sorted (r : Row F) (l : DataFrame F) :
  StronglySorted (λ r1 r2, ts_le (Date r1) (Date r2)) l →
  StronglySorted (λ r1 r2, ts_le (Date r1) (Date r2)) (insert_by_Date r l).
Proof.
  induction 1 as [|x l Hs IH Hall]; simpl.
  - by repeat constructor.
  - destruct (decide (ts_le (Date r) (Date x))) as [Hle|Hnle].
    + constructor; [by constructor|]. constructor; [done|].
      eapply Forall_impl; [exact Hall|]. intros y Hy. simpl in Hy.
      by etrans.
    + constructor; [done|]. rewrite insert_by_Date_Permutation.
      constructor; [|done].
      by destruct (total ts_le (Date r) (Date x)).
Qed.

Lemma order_by_Date_sorted (df : DataFrame F) :
  StronglySorted (λ r1 r2, ts_le (Date r1) (Date r2)) (order_by_Date df).
Proof.
  induction df as [|r df IH]; simpl; [constructor|].
  by apply insert_by_Date_sorted.
Qed.

Lemma get_price_series_Permutation tk conn :
  get_price_series tk conn
  ≡ₚ (λ p, {| Date := pr_Date p; adj_close := pr_adj_close p |})
     <$> filter (λ p, Ticker p = tk) conn.
Proof.
  unfold get_price_series. apply order_by_Date_Permutation.
Qed.

Lemma get_price_series_sorted tk conn :
  StronglySorted ts_le (Date <$> get_price_series tk conn).
Proof.
  unfold get_price_series.
  apply (StronglySorted_fmap _ (λ r1 r2 : Row F, ts_le (Date r1) (Date r2)));
    [done|].
  apply order_by_Date_sorted.
Qed.

Lemma get_price_series_NoDup tk conn :
  NoDup (table_key <$> conn) → NoDup (Date <$> get_price_series tk conn).
Proof.
  intros Hnd. rewrite get_price_series_Permutation, <-list_fmap_compose.
  apply NoDup_fmap_2_strong.
  - intros p q [Hp Hpin]%list_elem_of_filter [Hq Hqin]%list_elem_of_filter Hd.
    simpl in Hd. apply (NoDup_fmap_eq table_key conn); [done..|].
    unfold table_key. congruence.
  - by apply NoDup_filter, (NoDup_fmap_1 table_key).
Qed.

(** X9. [get_price_series] returns the rows that the table holds for the
    ticker, each as many times as the table has it and no other row, in
    non-decreasing order of date; for a ticker without rows it returns the
    empty frame. *)
Theorem get_price_series_rows tk conn :
  get_price_series tk conn
  ≡ₚ (λ p, {| Date := pr_Date p; adj_close := pr_adj_close p |})
     <$> filter (λ p, Ticker p = tk) conn ∧
  StronglySorted ts_le (Date <$> get_price_series tk conn) ∧
  (get_price_series tk conn = [] ↔ ∀ p, p ∈ conn → Ticker p ≠ tk).
Proof.
  split; [apply get_price_series_Permutation|].
  split; [apply get_price_series_sorted|]. split.
  - intros Hnil p Hp Htk.
    assert (mkRow (pr_Date p) (pr_adj_close p) ∈ get_price_series tk conn)
      as Hin.
    { rewrite get_price_series_Permutation. apply list_elem_of_fmap.
      exists p. split; [done|]. by apply list_elem_of_filter. }
    rewrite Hnil in Hin. by apply elem_of_nil in Hin.
  - intros Hnone. apply Permutation_nil.
    rewrite get_price_series_Permutation.
    assert (filter (λ p, Ticker p = tk) conn = []) as ->; [|done].
    apply elem_of_nil_inv. intros p [Htk Hp]%list_elem_of_filter.
    by apply (Hnone p).
Qed.

(** X10. When the table has at most one row per ticker and date, the
    dates of every series returned by [get_price_series] are strictly
    increasing. *)
Theorem get_price_series_strictly_increasing tk conn :
  NoDup (table_key <$> conn) →
  StronglySorted ts_lt (Date <$> get_price_series tk conn).
Proof.
  intros Hnd%(get_price_series_NoDup tk).
  pose proof (get_price_series_sorted tk conn) as Hs.
  induction Hs as [|d l Hs IH Hall]; [constructor|].
  apply NoDup_cons in Hnd as [Hd Hnd]. constructor; [by apply IH|].
  apply Forall_forall. intros x Hx. apply ts_le_ne_lt.
  - by apply (proj1 (Forall_forall _ _) Hall).
  - by intros ->.
Qed.
End MoreSeries.

(** ** run_simulations and main *)

Section MoreAggregator.
Context {F : Type} `{Float64 F}.
Implicit Types (conn : Connection F) (tickers : list string) (tk : string).

(** X11. [run_simulations] raises [ValueError] exactly for the empty list
    of tickers; otherwise it raises exactly when the simulation of some
    instrument fails, and the exception is that of the first such
    instrument of the list: [KeyError] when the table has no row for it,
    [ZeroDivisionError] when its series has a zero price on a schedule
    date. *)
Theorem run_simulations_exception tickers conn e :
  run_simulations tickers conn = inl e ↔
  (tickers = [] ∧ e = ValueError) ∨
  ∃ pre tk post, tickers = pre ++ tk :: post ∧
    (∀ t, t ∈ pre → ¬ simulation_fails conn t) ∧
    simulation_fails conn tk ∧ e = exception_of conn tk.
Proof. apply run_simulations_inl. Qed.

Lemma record_key_lump_sum (s : DataFrame F) tk :
  s ≠ [] →
  record_key <$> curve (simulate_lump_sum s tk)
  = (λ d, (tk, "Lump Sum", d)) <$> (Date <$> s).
Proof.
  destruct s as [|row0 rest]; [done|]. intros _.
  rewrite simulate_lump_sum_cons. cbn [curve df_equity].
  by rewrite <-!list_fmap_compose.
Qed.

Lemma record_key_dca (s : DataFrame F) tk res :
  simulate_dca s tk = inr res →
  record_key <$> df_equity res = (λ d, (tk, "DCA", d)) <$> (Date <$> s).
Proof.
  intros [_ ->]%simulate_dca_inr. cbn [df_equity].
  pose proof (length_dca_totals (_get_monthly_investment_dates s)
                (f_lit 0, f_lit 0) s) as Hlen. revert Hlen.
  generalize (dca_totals (_get_monthly_investment_dates s)
                (f_lit 0, f_lit 0) s) as tr.
  induction s as [|row rows IH]; intros [|a tr] Hlen; simpl in Hlen;
    try done.
  csimpl. f_equal. apply IH. lia.
Qed.

Lemma run_simulations_keys tickers conn all :
  run_simulations tickers conn = inr all →
  record_key <$> all
  = tickers ≫= λ tk, series_keys tk (Date <$> get_price_series tk conn).
Proof.
  unfold run_simulations.
  destruct (run_loop tickers conn []) as [e'|frames] eqn:Hrun; [done|].
  pose proof (run_loop_inr_ok _ _ _ _ Hrun) as Hok.
  rewrite run_loop_returns in Hrun by done. injection Hrun as <-.
  intros Hcat.
  assert (all = tickers ≫= λ tk,
            curve (simulate_lump_sum (get_price_series tk conn) tk)
            ++ curve (simulate_dca (get_price_series tk conn) tk)) as ->.
  { rewrite <-concat_bind_pair. unfold pd_concat in Hcat.
    destruct (tickers ≫= _); [done|]. by injection Hcat as <-. }
  clear Hcat. induction tickers as [|t rest IH]; [done|].
  csimpl. rewrite !fmap_app. rewrite IH by (intros t' ?; apply Hok; by right).
  rewrite <-app_assoc. unfold series_keys at 2. rewrite <-app_assoc.
  destruct (instrument_outcome conn t) as [[Hf _]|[_ Hret]].
  { destruct (Hok t); [left|done]. }
  destruct Hret as (lump & dca & Hlump & Hdca).
  rewrite (record_key_lump_sum _ t).
  2:{ intros Hnil. by rewrite Hnil in Hlump. }
  rewrite Hdca. cbn [curve]. by rewrite (record_key_dca _ _ _ Hdca).
Qed.

(** X12. When [run_simulations] returns, the columns ticker, strategy and
    date of its frame are, for every ticker of the list in order, the
    dates of the series of the ticker tagged "Lump Sum", then the same
    dates tagged "DCA": two records per row read from the table. *)
Theorem run_simulations_layout tickers conn all :
  run_simulations tickers conn = inr all →
  record_key <$> all
  = (tickers ≫= λ tk, series_keys tk (Date <$> get_price_series tk conn)) ∧
  length all
  = (2 * sum_list_with (λ tk, length (get_price_series tk conn)) tickers)%nat.
Proof.
  intros Hrun. pose proof (run_simulations_keys _ _ _ Hrun) as Hkeys.
  split; [done|]. rewrite <-(length_fmap record_key), Hkeys. clear.
  induction tickers as [|t rest IH]; [done|]. csimpl.
  rewrite !length_app, IH. unfold series_keys.
  rewrite !length_app, !length_fmap. lia.
Qed.

(** X13. When the tickers of the list are pairwise distinct and the table
    has at most one row per ticker and date, no two records of the frame
    returned by [run_simulations] have the same ticker, strategy and
    date. *)
Theorem run_simulations_keys_unique tickers conn all :
  NoDup tickers →
  NoDup (table_key <$> conn) →
  run_simulations tickers conn = inr all →
  NoDup (record_key <$> all).
Proof.
  intros Htk Hconn Hrun. rewrite (run_simulations_keys _ _ _ Hrun).
  apply NoDup_bind; [| |done].
  - intros t1 t2 [[t s] d] _ _ H1 H2.
    assert (∀ t', (t, s, d) ∈ series_keys t'
                    (Date <$> get_price_series t' conn) → t = t') as Ht.
    { intros t' [Hin|Hin]%elem_of_app;
        apply list_elem_of_fmap in Hin as (? & [= -> _ _] & _); done. }
    by rewrite <-(Ht t1 H1), <-(Ht t2 H2).
  - intros t _. unfold series_keys.
    pose proof (get_price_series_NoDup t conn Hconn) as Hd.
    apply NoDup_app. split; [|split].
    + apply NoDup_fmap_2; [|done]. by intros ?? [= ->].
    + intros k (? & -> & _)%list_elem_of_fmap (? & [= _] & _)%list_elem_of_fmap.
    + apply NoDup_fmap_2; [|done]. by intros ?? [= ->].
Qed.

(** X14. [main] replaces [equity_curves.csv] only when the simulations of
    AAPL, MSFT and ^GSPC all return, and then the file holds the frame of
    [run_simulations]; when one of them fails, [main] ends with the
    exception of the first that does and the file is left as it was. *)
Theorem main_outcome conn (csv : option (list (EquityRecord F))) :
  ((∀ tk, tk ∈ MAIN_TICKERS → ¬ simulation_fails conn tk) →
   ∃ all, run_simulations MAIN_TICKERS conn = inr all ∧
          main conn csv = (None, Some all)) ∧
  (∀ tk, tk ∈ MAIN_TICKERS → simulation_fails conn tk →
   ∃ e, main conn csv = (Some e, csv) ∧
        (e = KeyError ∨ e = ZeroDivisionError)).
Proof.
  unfold main. split.
  - intros Hok.
    destruct (run_simulations MAIN_TICKERS conn) as [e|all] eqn:Hrun;
      [|by exists all].
    apply run_simulations_inl in Hrun
      as [[? _]|(pre & tk & post & Heq & _ & Hf & _)]; [done|].
    destruct (Hok tk); [|done]. rewrite Heq.
    apply elem_of_app. right. left.
  - intros tk Htk Hfail.
    destruct (run_loop_raises MAIN_TICKERS conn [] tk Htk Hfail) as [e He].
    assert (run_simulations MAIN_TICKERS conn = inl e) as Hrun
      by (unfold run_simulations; by rewrite He).
    rewrite Hrun. exists e. split; [done|].
    apply run_simulations_inl in Hrun
      as [[? _]|(pre & tk' & post & _ & _ & _ & ->)]; [done|].
    unfold exception_of. destruct (get_price_series tk' conn); auto.
Qed.
End MoreAggregator.

(** ** Instances of the further properties on concrete data *)

Lemma schedule_of_month_is_local_witness :
  let d := mkTimestamp 2020 1 6 in
  (∀ x, ym x = ym d →
        (x ∈ Date <$> ex_unordered ↔ x ∈ Date <$> ex_with_march)) ∧
  (d ∈ _get_monthly_investment_dates ex_unordered
   ↔ d ∈ _get_monthly_investment_dates ex_with_march).
Proof.
  intros d.
  assert (Hsame : ∀ x, ym x = ym d →
            (x ∈ Date <$> ex_unordered ↔ x ∈ Date <$> ex_with_march)).
  { intros x Hx.
    change (x ∈ [mkTimestamp 2020 2 5; mkTimestamp 2020 1 6]
            ↔ x ∈ [mkTimestamp 2020 2 5; mkTimestamp 2020 1 6;
                   mkTimestamp 2020 3 2]).
    rewrite !elem_of_cons, elem_of_nil. split; [tauto|].
    intros [->|[->|[->|[]]]]; auto. discriminate Hx. }
  split; [exact Hsame|].
  exact (schedule_of_month_is_local ex_unordered ex_with_march d Hsame).
Defined.

Lemma schedule_depends_on_dates_only_witness :
  (∀ x, x ∈ Date <$> ex_unordered ↔ x ∈ Date <$> ex_reordered) ∧
  _get_monthly_investment_dates ex_unordered
  = _get_monthly_investment_dates ex_reordered.
Proof.
  assert (Hsame : ∀ x, x ∈ Date <$> ex_unordered
                       ↔ x ∈ Date <$> ex_reordered).
  { intros x.
    change (x ∈ [mkTimestamp 2020 2 5; mkTimestamp 2020 1 6]
            ↔ x ∈ [mkTimestamp 2020 1 6; mkTimestamp 2020 2 5;
                   mkTimestamp 2020 2 5]).
    rewrite !elem_of_cons, elem_of_nil. tauto. }
  split; [exact Hsame|].
  exact (schedule_depends_on_dates_only ex_unordered ex_reordered Hsame).
Defined.

Lemma target_day_is_selected_witness :
  let r := q_row 2020 2 5 11 in
  r ∈ ex_two_months ∧
  day (Date r) = INVESTMENT_DAY ∧
  Date r ∈ _get_monthly_investment_dates ex_two_months.
Proof.
  intros r.
  assert (Hr : r ∈ ex_two_months).
  { apply list_elem_of_lookup. exists 2%nat. reflexivity. }
  assert (Hday : day (Date r) = INVESTMENT_DAY) by reflexivity.
  do 2 (split; [assumption|]).
  exact (target_day_is_selected ex_two_months r Hr Hday).
Defined.

Lemma dca_state_after_rows_witness :
  simulate_dca ex_two_months "AAPL" = inr ex_two_months_dca ∧
  (3 ≤ length ex_two_months)%nat ∧
  accumulators ex_two_months_dca !! 3%nat
  = Some (foldl buy (f_lit 0, f_lit 0)
            (filter
               (λ r, Date r ∈ _get_monthly_investment_dates ex_two_months)
               (take 3 ex_two_months))).
Proof.
  assert (Hrun : simulate_dca ex_two_months "AAPL" = inr ex_two_months_dca)
    by (vm_compute; reflexivity).
  assert (Hn : (3 ≤ length ex_two_months)%nat) by (simpl; lia).
  do 2 (split; [assumption|]).
  exact (dca_state_after_rows ex_two_months "AAPL" ex_two_months_dca 3
           Hrun Hn).
Defined.

Lemma purchases_follow_schedule_witness :
  StronglySorted ts_lt (Date <$> ex_two_months) ∧
  simulate_dca ex_two_months "AAPL" = inr ex_two_months_dca ∧
  (3 ≤ length ex_two_months)%nat ∧
  ∃ rows,
    rows `sublist_of` take 3 ex_two_months ∧
    Date <$> rows = [mkTimestamp 2020 1 20; mkTimestamp 2020 2 5] ∧
    accumulators ex_two_months_dca !! 3%nat
    = Some (foldl buy (f_lit 0, f_lit 0) rows).
Proof.
  assert (Hs : StronglySorted ts_lt (Date <$> ex_two_months))
    by (apply (bool_decide_unpack _); vm_compute; exact I).
  assert (Hrun : simulate_dca ex_two_months "AAPL" = inr ex_two_months_dca)
    by (vm_compute; reflexivity).
  assert (Hn : (3 ≤ length ex_two_months)%nat) by (simpl; lia).
  do 3 (split; [assumption|]).
  destruct (purchases_follow_schedule ex_two_months "AAPL" ex_two_months_dca
              3 Hs Hrun Hn) as (rows & Hsub & Hdates & Hacc).
  exists rows. split; [exact Hsub|]. split; [|exact Hacc].
  etrans; [exact Hdates|]. vm_compute. reflexivity.
Defined.

Lemma get_price_series_strictly_increasing_witness :
  NoDup (table_key <$> ex_conn_two_tickers) ∧
  StronglySorted ts_lt (Date <$> get_price_series "AAPL" ex_conn_two_tickers).
Proof.
  assert (Hnd : NoDup (table_key <$> ex_conn_two_tickers))
    by (apply (bool_decide_unpack _); vm_compute; exact I).
  split; [exact Hnd|].
  exact (get_price_series_strictly_increasing "AAPL" ex_conn_two_tickers Hnd).
Defined.

Lemma run_simulations_layout_witness :
  run_simulations ["AAPL"; "MSFT"] ex_conn_two_tickers
  = inr ex_two_tickers_all ∧
  record_key <$> ex_two_tickers_all
  = (["AAPL"; "MSFT"] ≫= λ tk,
       series_keys tk (Date <$> get_price_series tk ex_conn_two_tickers)) ∧
  length ex_two_tickers_all
  = (2 * sum_list_with
           (λ tk, length (get_price_series tk ex_conn_two_tickers))
           ["AAPL"; "MSFT"])%nat.
Proof.
  assert (Hrun : run_simulations ["AAPL"; "MSFT"] ex_conn_two_tickers
                 = inr ex_two_tickers_all) by (vm_compute; reflexivity).
  split; [exact Hrun|].
  exact (run_simulations_layout ["AAPL"; "MSFT"] ex_conn_two_tickers
           ex_two_tickers_all Hrun).
Defined.

Lemma run_simulations_keys_unique_witness :
  NoDup ["AAPL"; "MSFT"] ∧
  NoDup (table_key <$> ex_conn_two_tickers) ∧
  run_simulations ["AAPL"; "MSFT"] ex_conn_two_tickers
  = inr ex_two_tickers_all ∧
  NoDup (record_key <$> ex_two_tickers_all).
Proof.
  assert (Htk : NoDup ["AAPL"; "MSFT"])
    by (apply (bool_decide_unpack _); vm_compute; exact I).
  assert (Hnd : NoDup (table_key <$> ex_conn_two_tickers))
    by (apply (bool_decide_unpack _); vm_compute; exact I).
  assert (Hrun : run_simulations ["AAPL"; "MSFT"] ex_conn_two_tickers
                 = inr ex_two_tickers_all) by (vm_compute; reflexivity).
  do 3 (split; [assumption|]).
  exact (run_simulations_keys_unique ["AAPL"; "MSFT"] ex_conn_two_tickers
           ex_two_tickers_all Htk Hnd Hrun).
Defined.

(** The run for the two tickers: six records, in the order of the list,
    each series in the order of its dates. *)
Example two_tickers_run :
  record_key <$> ex_two_tickers_all
  = [("AAPL", "Lump Sum", mkTimestamp 2020 1 6);
     ("AAPL", "Lump Sum", mkTimestamp 2020 2 5);
     ("AAPL", "DCA", mkTimestamp 2020 1 6);
     ("AAPL", "DCA", mkTimestamp 2020 2 5);
     ("MSFT", "Lump Sum", mkTimestamp 2020 1 6);
     ("MSFT", "DCA", mkTimestamp 2020 1 6)].
Proof. by vm_compute. Qed.
